(** * pyeda.boolalg.boolfunc: variables, points and the Function contract

    A shallow embedding of [pyeda/boolalg/boolfunc.py]: the variable
    registry ([var], [Variable.__init__]), the point/term codec
    ([num2point], [num2upoint], [num2term], [point2upoint], [iter_points],
    [iter_upoints]) and the operations the abstract [Function] class derives
    from its primitives ([iter_cofactors], [smoothing], [consensus],
    [derivative], [__add__]). *)

From Stdlib Require Import ZArith List Bool Lia.
From stdpp Require Import base gmap sets list strings pretty.

Open Scope Z_scope.

(** ** Python values and exceptions *)

(** The exceptions the module raises, with the message text. *)
Inductive exn :=
  | TypeError (msg : string)
  | ValueError (msg : string)
  | IndexError (msg : string).

(** A computation that returns or raises. *)
Inductive result (A : Type) :=
  | Ok (a : A)
  | Raise (e : exn).
Arguments Ok {A} a.
Arguments Raise {A} e.

#[global] Instance result_bind : MBind result := λ A B k r,
  match r with
  | Ok a => k a
  | Raise e => Raise e
  end.
#[global] Instance result_ret : MRet result := @Ok.

(** The argument values [var] tells apart by their type. *)
#[warnings="-register-all"]
Inductive pyobj :=
  | PyNone
  | PyBool (b : bool)
  | PyInt (z : Z)
  | PyStr (s : string)
  | PyTuple (items : list pyobj).

(** [type(x).__name__] *)
Definition type_name (x : pyobj) : string :=
  match x with
  | PyNone => "NoneType"
  | PyBool _ => "bool"
  | PyInt _ => "int"
  | PyStr _ => "str"
  | PyTuple _ => "tuple"
  end.

(** ** Variables *)

(** A [Variable] object ([Variable] itself is a reserved word here, hence
    the lower case). [oid] is the identity of the object ([id(v)]): the
    class defines neither [__eq__] nor [__hash__], so a dict keyed by
    variables compares keys by identity. *)
Record variable := mkVariable {
  oid : positive;
  names : list string;
  indices : list Z;
  uniqid : Z
}.

Definition Variable_is (v w : variable) : bool := Pos.eqb (oid v) (oid w).

(** ** The point/term codec *)

(** Modelled from the spec: [bit_on] is imported from [pyeda.util], which
    is not part of the sources at hand; the spec describes it as bit [i] of
    [num] with bit 0 the least significant, that is [(num >> bit) & 1]. *)
Definition bit_on (num bit : Z) : Z := Z.land (Z.shiftr num bit) 1.

(** [enumerate(l)], counting from [start]. *)
Fixpoint enumerate_from {A} (start : Z) (l : list A) : list (Z * A) :=
  match l with
  | [] => []
  | x :: l' => (start, x) :: enumerate_from (start + 1) l'
  end.

Definition enumerate {A} (l : list A) : list (Z * A) := enumerate_from 0 l.

(** A point is a dict from variables to ints: an association list in
    insertion order, keys compared by identity. *)
Definition point := list (variable * Z).

(** [d[k] = x]: assigning to a key already present keeps its position. *)
Fixpoint dict_set (d : point) (k : variable) (x : Z) : point :=
  match d with
  | [] => [(k, x)]
  | (k', x') :: d' =>
      if Variable_is k' k then (k', x) :: d' else (k', x') :: dict_set d' k x
  end.

Definition num2point (num : Z) (vs : list variable) : point :=
  fold_left (fun d iv => dict_set d (snd iv) (bit_on num (fst iv)))
            (enumerate vs) [].

(** An untyped point: the pair of frozensets [(zeros, ones)]. *)
Definition upoint := (gset Z * gset Z)%type.

Definition index_error : exn := IndexError "list index out of range".

(** [upoint[val].add(u)] on the two-element list [upoint], after the
    statements that gave [acc]; a subscript out of range raises
    [IndexError]. Python reads the subscripts -1 and -2 from the end. *)
Definition upoint_add (acc : result upoint) (val : Z) (u : Z) : result upoint :=
  up ← acc;
  if (val =? 0) || (val =? -2) then Ok ({[u]} ∪ fst up, snd up)
  else if (val =? 1) || (val =? -1) then Ok (fst up, {[u]} ∪ snd up)
  else Raise index_error.

Definition num2upoint (num : Z) (vs : list variable) : result upoint :=
  fold_left (fun acc iv => upoint_add acc (bit_on num (fst iv)) (uniqid (snd iv)))
            (enumerate vs) (Ok (∅, ∅)).

Definition point2upoint (p : point) : result upoint :=
  fold_left (fun acc vval => upoint_add acc (snd vval) (uniqid (fst vval)))
            p (Ok (∅, ∅)).

(** [range(n)] *)
Definition range (n : Z) : list Z := map Z.of_nat (seq 0 (Z.to_nat n)).

(** The generators are modelled by the lists of the values they yield. *)
Definition iter_points (vs : list variable) : list point :=
  map (fun num => num2point num vs) (range (Z.shiftl 1 (Z.of_nat (length vs)))).

Definition iter_upoints (vs : list variable) : result (list upoint) :=
  mapM (fun num => num2upoint num vs)
       (range (Z.shiftl 1 (Z.of_nat (length vs)))).

(** ** The Function contract *)

(** The primitives a concrete representation supplies; the abstract class
    raises [NotImplementedError] for each of them. *)
Class Function (F : Type) := {
  __invert__ : F → F;
  __or__ : F → F → F;
  __and__ : F → F → F;
  __xor__ : F → F → F;
  support : F → list variable;
  urestrict : F → upoint → F
}.

Section Terms.
Context {F : Type} `{Function F}.

Definition num2term (num : Z) (fs : list F) (conj : bool) : list F :=
  if conj then
    map (fun i_f => if negb (bit_on num (fst i_f) =? 0)
                    then __invert__ (snd i_f) else snd i_f) (enumerate fs)
  else
    map (fun i_f => if negb (bit_on num (fst i_f) =? 0)
                    then snd i_f else __invert__ (snd i_f)) (enumerate fs).

Definition iter_terms (fs : list F) (conj : bool) : list (list F) :=
  map (fun num => num2term num fs conj)
      (range (Z.shiftl 1 (Z.of_nat (length fs)))).
End Terms.

(** Modelled from the spec: [farray] is the class of
    [pyeda.boolalg.bfarray], which is not part of the sources at hand; the
    spec calls it an ordered array-of-functions. [farray(l)] builds the
    array of the items of [l] and [a.flat] iterates over its items. *)
Record farray (F : Type) := mk_farray { flat : list F }.
Arguments mk_farray {F} flat.
Arguments flat {F} f.

(** What an operand or a result of an operator can be. *)
Inductive pyval (F : Type) :=
  | PFunction (f : F)
  | PFarray (a : farray F)
  | PObject (tname : string).
Arguments PFunction {F} f.
Arguments PFarray {F} a.
Arguments PObject {F} tname.

(** What a caller can pass for [vs]. *)
Inductive pyitem :=
  | IsVariable (v : variable)
  | NotVariable (tname : string).

Inductive vs_arg :=
  | VsNone
  | VsVariable (v : variable)
  | VsIterable (items : list pyitem)
  | VsObject (tname : string).

(** [functools.reduce(function, iterable)] without an initial value. *)
Definition empty_reduction : exn :=
  TypeError "reduce() of empty sequence with no initial value".

Definition reduce {A} (function : A → A → A) (iterable : list A) : result A :=
  match iterable with
  | [] => Raise empty_reduction
  | x :: xs => Ok (fold_left function xs x)
  end.

Section Derived.
Context {F : Type} `{Function F}.

Definition degree (f : F) : Z := Z.of_nat (length (support f)).

Definition cardinality (f : F) : Z := Z.shiftl 1 (degree f).

Definition _expect_vars (vs : vs_arg) : result (list variable) :=
  match vs with
  | VsNone => Ok []
  | VsVariable v => Ok [v]
  | VsIterable items =>
      mapM (fun x => match x with
                     | IsVariable v => Ok v
                     | NotVariable t =>
                         Raise (TypeError ("expected Variable, got " +:+ t))
                     end) items
  | VsObject t => Raise (TypeError ("'" +:+ t +:+ "' object is not iterable"))
  end.

Definition iter_cofactors (f : F) (vs : vs_arg) : result (list F) :=
  vs' ← _expect_vars vs;
  upoints ← iter_upoints vs';
  Ok (map (urestrict f) upoints).

Definition cofactors (f : F) (vs : vs_arg) : result (list F) :=
  iter_cofactors f vs.

Definition smoothing (f : F) (vs : vs_arg) : result F :=
  cfs ← iter_cofactors f vs; reduce __or__ cfs.

Definition consensus (f : F) (vs : vs_arg) : result F :=
  cfs ← iter_cofactors f vs; reduce __and__ cfs.

Definition derivative (f : F) (vs : vs_arg) : result F :=
  cfs ← iter_cofactors f vs; reduce __xor__ cfs.

Definition __add__ (self : F) (other : pyval F) : result (pyval F) :=
  match other with
  | PFunction g => Ok (PFarray (mk_farray ([self] ++ [g])))
  | PFarray a => Ok (PFarray (mk_farray ([self] ++ flat a)))
  | PObject _ => Raise (TypeError "expected Function or farray")
  end.

Definition __radd__ (self : F) (other : pyval F) : result (pyval F) :=
  match other with
  | PFunction g => Ok (PFarray (mk_farray ([g] ++ [self])))
  | PFarray a => Ok (PFarray (mk_farray (flat a ++ [self])))
  | PObject _ => Raise (TypeError "expected Function or farray")
  end.
End Derived.

(** ** The variable registry *)

(** The key [(names, indices)] of the two module-level dicts. *)
Abbreviation key := (list string * list Z)%type.

(** The module state: the dicts [VARIABLES] and [_UNIQIDS], the counter
    [_COUNT], and the identity the next object created will have. *)
Record registry := mk_registry {
  VARIABLES : gmap key variable;
  _UNIQIDS : gmap key Z;
  _COUNT : Z;
  next_oid : positive
}.

(** The state right after the module is loaded. *)
Definition registry_init : registry :=
  {| VARIABLES := ∅; _UNIQIDS := ∅; _COUNT := 1; next_oid := 1%positive |}.

(** [Variable(names, indices)]: the constructor call. The lock of the
    [with] statement plays no part in a single thread of control; the
    interleaving of several threads is modelled further down. *)
Definition Variable__init__ (names : list string) (indices : list Z)
    (st : registry) : variable * registry :=
  match _UNIQIDS st !! (names, indices) with
  | Some uniqid =>
      (mkVariable (next_oid st) names indices uniqid,
       {| VARIABLES := VARIABLES st; _UNIQIDS := _UNIQIDS st;
          _COUNT := _COUNT st; next_oid := Pos.succ (next_oid st) |})
  | None =>
      let uniqid := _COUNT st in
      (mkVariable (next_oid st) names indices uniqid,
       {| VARIABLES := VARIABLES st;
          _UNIQIDS := <[(names, indices) := uniqid]> (_UNIQIDS st);
          _COUNT := _COUNT st + 1;
          next_oid := Pos.succ (next_oid st) |})
  end.

Definition is_alpha (c : Ascii.ascii) : bool :=
  let n := Ascii.N_of_ascii c in
  ((65 <=? n) && (n <=? 90) || (97 <=? n) && (n <=? 122))%N.

Definition is_word (c : Ascii.ascii) : bool :=
  let n := Ascii.N_of_ascii c in
  (is_alpha c || (48 <=? n) && (n <=? 57) || (n =? 95))%N.

(** The tail [[a-zA-Z0-9_]*$] of the pattern: [$] matches at the end of
    the string and also just before a newline that ends it. *)
Fixpoint match_word_tail (s : string) : bool :=
  match s with
  | EmptyString => true
  | String c s' =>
      if is_word c then match_word_tail s'
      else (Ascii.N_of_ascii c =? 10)%N && String.eqb s' EmptyString
  end.

(** [re.match(r"^[a-zA-Z][a-zA-Z0-9_]*$", name)] finds a match. *)
Definition match_name (name : string) : bool :=
  match name with
  | EmptyString => false
  | String c s' => is_alpha c && match_word_tail s'
  end.

Fixpoint check_names (names : list pyobj) : result unit :=
  match names with
  | [] => Ok ()
  | PyStr name :: rest =>
      if match_name name then check_names rest
      else Raise (ValueError
             ("expected name to match [a-zA-Z][a-zA-Z0-9_]*, got " +:+ name))
  | x :: _ =>
      Raise (TypeError ("expected name to be a str, got " +:+ type_name x))
  end.

Fixpoint check_indices (indices : list pyobj) : result unit :=
  match indices with
  | [] => Ok ()
  | PyInt index :: rest =>
      if index <? 0
      then Raise (ValueError
             ("expected index to be >= 0, got " +:+ pretty index))
      else check_indices rest
  | x :: _ =>
      Raise (TypeError ("expected index to be an int, got " +:+ type_name x))
  end.

(** The strings of a tuple of [str], the ints of a tuple of [int]. *)
Definition str_values (l : list pyobj) : list string :=
  omap (fun x => match x with PyStr s => Some s | _ => None end) l.

Definition int_values (l : list pyobj) : list Z :=
  omap (fun x => match x with PyInt z => Some z | _ => None end) l.

(** The first part of [var]: the checks, which give the key
    [(names, indices)] or raise. *)
Definition var_args (name index : pyobj) : result key :=
  names ← match name with
          | PyStr _ => Ok [name]
          | PyTuple items => Ok items
          | _ => Raise (TypeError
                   ("expected name to be a str or tuple, got "
                    +:+ type_name name))
          end;
  _ ← match names with
      | [] => Raise (ValueError "expected at least one name")
      | _ => Ok ()
      end;
  _ ← check_names names;
  indices ← match index with
            | PyNone => Ok []
            | PyInt _ => Ok [index]
            | PyTuple items => Ok items
            | _ => Raise (TypeError
                     ("expected index to be an int or tuple, got "
                      +:+ type_name index))
            end;
  _ ← check_indices indices;
  Ok (str_values names, int_values indices).

(** The second part of [var]: the [try] that reads [VARIABLES] and, on
    [KeyError], builds the variable and stores it. *)
Definition var_lookup (k : key) (st : registry) : variable * registry :=
  match VARIABLES st !! k with
  | Some v => (v, st)
  | None =>
      let '(v, st') := Variable__init__ (fst k) (snd k) st in
      (v, {| VARIABLES := <[k := v]> (VARIABLES st');
             _UNIQIDS := _UNIQIDS st';
             _COUNT := _COUNT st';
             next_oid := next_oid st' |})
  end.

Definition var (name index : pyobj) (st : registry)
    : result (variable * registry) :=
  k ← var_args name index; Ok (var_lookup k st).

(** One call changes the module state: a call of [var], which may raise
    and then leaves the state alone, or a direct call of the constructor,
    as the classes derived from [Variable] make. *)
Inductive registry_step (st : registry) : registry → Prop :=
  | step_var name index v st' :
      var name index st = Ok (v, st') → registry_step st st'
  | step_Variable names indices :
      registry_step st (snd (Variable__init__ names indices st)).

(** The states the module can be in: any number of calls after loading. *)
Definition reachable (st : registry) : Prop := rtc registry_step registry_init st.

(** A call that changes the module state. *)
Inductive call :=
  | CallVar (name index : pyobj)
  | CallVariable (names : list string) (indices : list Z).

Definition run_call (c : call) (st : registry) : registry :=
  match c with
  | CallVar name index =>
      match var name index st with
      | Ok (_, st') => st'
      | Raise _ => st
      end
  | CallVariable names indices => snd (Variable__init__ names indices st)
  end.

Definition run_calls (calls : list call) (st : registry) : registry :=
  fold_left (fun st c => run_call c st) calls st.

(** What holds of the module state at all times. *)
Record registry_wf (st : registry) : Prop := mk_registry_wf {
  wf_ids_range : ∀ k u, _UNIQIDS st !! k = Some u → 1 ≤ u < _COUNT st;
  wf_ids_inj : ∀ k1 k2 u,
      _UNIQIDS st !! k1 = Some u → _UNIQIDS st !! k2 = Some u → k1 = k2;
  wf_ids_size : Z.of_nat (size (_UNIQIDS st)) = _COUNT st - 1;
  wf_vars : ∀ k v,
      VARIABLES st !! k = Some v →
      (names v, indices v) = k ∧ _UNIQIDS st !! k = Some (uniqid v)
}.

(** ** A concrete representation

    The classes that implement the contract (expressions, truth tables,
    decision diagrams) live in other modules. [Expr] is a minimal symbolic
    one, used to instantiate the contract on concrete inputs. *)
Inductive Expr :=
  | EZero
  | EOne
  | EVar (v : variable)
  | ENot (e : Expr)
  | EOr (e1 e2 : Expr)
  | EAnd (e1 e2 : Expr)
  | EXor (e1 e2 : Expr).

Definition add_var (v : variable) (vs : list variable) : list variable :=
  if existsb (Variable_is v) vs then vs else vs ++ [v].

Fixpoint Expr_support_acc (e : Expr) (acc : list variable) : list variable :=
  match e with
  | EZero | EOne => acc
  | EVar v => add_var v acc
  | ENot e1 => Expr_support_acc e1 acc
  | EOr e1 e2 | EAnd e1 e2 | EXor e1 e2 =>
      Expr_support_acc e2 (Expr_support_acc e1 acc)
  end.

Fixpoint Expr_urestrict (e : Expr) (up : upoint) : Expr :=
  match e with
  | EZero => EZero
  | EOne => EOne
  | EVar v =>
      if decide (uniqid v ∈ fst up) then EZero
      else if decide (uniqid v ∈ snd up) then EOne
      else EVar v
  | ENot e1 => ENot (Expr_urestrict e1 up)
  | EOr e1 e2 => EOr (Expr_urestrict e1 up) (Expr_urestrict e2 up)
  | EAnd e1 e2 => EAnd (Expr_urestrict e1 up) (Expr_urestrict e2 up)
  | EXor e1 e2 => EXor (Expr_urestrict e1 up) (Expr_urestrict e2 up)
  end.

#[global] Instance Expr_Function : Function Expr := {|
  __invert__ := ENot;
  __or__ := EOr;
  __and__ := EAnd;
  __xor__ := EXor;
  support := fun e => Expr_support_acc e [];
  urestrict := Expr_urestrict
|}.

(** ** Definitions used in the statements and proofs *)

(** The items [num2point] inserts, in order. *)
Definition point_items (num : Z) (ivs : list (Z * variable)) : point :=
  map (fun iv => (snd iv, bit_on num (fst iv))) ivs.

(** The number whose bit [i] is [bs[i]]. *)
Fixpoint bits2num (bs : list bool) : Z :=
  match bs with
  | [] => 0
  | b :: bs' => 2 * bits2num bs' + Z.b2z b
  end.

(** The untyped point of [num]: the fold of [num2upoint] on plain pairs. *)
Definition upoint_of_num (num : Z) (vs : list variable) : upoint :=
  fold_left (fun (up : upoint) iv =>
               if bit_on num (fst iv) =? 0
               then ({[uniqid (snd iv)]} ∪ fst up, snd up)
               else (fst up, {[uniqid (snd iv)]} ∪ snd up))
            (enumerate vs) (∅, ∅).

(** ** Several threads in [var]

    The statements of [var] (after the checks) and of [Variable.__init__],
    one step each, so that calls made from several threads interleave
    between statements. *)

(** The module state shared by the threads, with the lock objects that are
    held and the identity the next lock created will have. *)
Record shared := mk_shared {
  reg : registry;
  held : gset positive;
  next_lock : positive
}.

Definition shared_init : shared :=
  {| reg := registry_init; held := ∅; next_lock := 1%positive |}.

(** Where a thread is in its call of [var]. *)
Inductive thread :=
  | AtVariablesLookup (k : key)
  | AtNewLock (k : key)
  | AtAcquire (k : key) (lock : positive)
  | AtUniqidsLookup (k : key) (lock : positive)
  | AtReadCount (k : key) (lock : positive)
  | AtIncrCount (k : key) (lock : positive) (uid : Z)
  | AtUniqidsStore (k : key) (lock : positive) (uid : Z)
  | AtRelease (k : key) (lock : positive) (uid : Z)
  | AtSetFields (k : key) (uid : Z)
  | AtVariablesStore (k : key) (v : variable)
  | Returned (v : variable).

Definition set_reg (sh : shared) (r : registry) : shared :=
  {| reg := r; held := held sh; next_lock := next_lock sh |}.

(** One statement of one thread; [None] when the thread has returned or
    waits for a lock that is held. *)
Definition thread_step (sh : shared) (t : thread) : option (shared * thread) :=
  let r := reg sh in
  match t with
  | AtVariablesLookup k =>
      (* v = VARIABLES[(names, indices)] *)
      match VARIABLES r !! k with
      | Some v => Some (sh, Returned v)
      | None => Some (sh, AtNewLock k)
      end
  | AtNewLock k =>
      (* threading.Lock() *)
      Some ({| reg := r; held := held sh;
               next_lock := Pos.succ (next_lock sh) |},
            AtAcquire k (next_lock sh))
  | AtAcquire k lock =>
      (* with ...: *)
      if decide (lock ∈ held sh) then None
      else Some ({| reg := r; held := {[lock]} ∪ held sh;
                    next_lock := next_lock sh |},
                 AtUniqidsLookup k lock)
  | AtUniqidsLookup k lock =>
      (* uniqid = _UNIQIDS[(names, indices)] *)
      match _UNIQIDS r !! k with
      | Some uid => Some (sh, AtRelease k lock uid)
      | None => Some (sh, AtReadCount k lock)
      end
  | AtReadCount k lock =>
      (* uniqid = _COUNT *)
      Some (sh, AtIncrCount k lock (_COUNT r))
  | AtIncrCount k lock uid =>
      (* _COUNT += 1 *)
      Some (set_reg sh {| VARIABLES := VARIABLES r; _UNIQIDS := _UNIQIDS r;
                          _COUNT := _COUNT r + 1; next_oid := next_oid r |},
            AtUniqidsStore k lock uid)
  | AtUniqidsStore k lock uid =>
      (* _UNIQIDS[(names, indices)] = uniqid *)
      Some (set_reg sh {| VARIABLES := VARIABLES r;
                          _UNIQIDS := <[k := uid]> (_UNIQIDS r);
                          _COUNT := _COUNT r; next_oid := next_oid r |},
            AtRelease k lock uid)
  | AtRelease k lock uid =>
      (* the end of the with block *)
      Some ({| reg := r; held := held sh ∖ {[lock]};
               next_lock := next_lock sh |},
            AtSetFields k uid)
  | AtSetFields k uid =>
      (* self.names = names; self.indices = indices; self.uniqid = uniqid *)
      Some (set_reg sh {| VARIABLES := VARIABLES r; _UNIQIDS := _UNIQIDS r;
                          _COUNT := _COUNT r;
                          next_oid := Pos.succ (next_oid r) |},
            AtVariablesStore k (mkVariable (next_oid r) (fst k) (snd k) uid))
  | AtVariablesStore k v =>
      (* VARIABLES[(names, indices)] = v *)
      Some (set_reg sh {| VARIABLES := <[k := v]> (VARIABLES r);
                          _UNIQIDS := _UNIQIDS r;
                          _COUNT := _COUNT r; next_oid := next_oid r |},
            Returned v)
  | Returned _ => None
  end.

(** The thread at position [i] of [ts] takes a step, if it can. *)
Definition schedule_step (i : nat) (c : shared * list thread)
    : shared * list thread :=
  match snd c !! i with
  | Some t =>
      match thread_step (fst c) t with
      | Some (sh', t') => (sh', <[i := t']> (snd c))
      | None => c
      end
  | None => c
  end.

(** The threads run as the schedule says, one statement at a time. *)
Definition run_schedule (schedule : list nat) (c : shared * list thread)
    : shared * list thread :=
  fold_left (fun c i => schedule_step i c) schedule c.

(** What each thread has returned. *)
Definition returned_uniqids (c : shared * list thread) : list (option Z) :=
  map (fun t => match t with Returned v => Some (uniqid v) | _ => None end)
      (snd c).

(** Concrete inputs. *)
Definition ex_a : variable := mkVariable 1 ["a"] [] 1.
Definition ex_b : variable := mkVariable 2 ["b"] [] 2.
Definition key_a : key := (["a"], []).

(** Two threads intern the key of [a]; each statement of the first is
    followed by the same statement of the second, except that the first
    reads and bumps [_COUNT] before the second does. *)
Definition two_threads : shared * list thread :=
  (shared_init, [AtVariablesLookup key_a; AtVariablesLookup key_a]).

Definition interleaving : list nat :=
  [0; 1; 0; 1; 0; 1; 0; 1; 0; 0; 1; 1; 0; 1; 0; 1; 0; 1; 0; 1; 0; 1]%nat.

(** ** The rest of the codec *)

(** [d.get(k)] *)
Fixpoint dict_get (d : point) (k : variable) : option Z :=
  match d with
  | [] => None
  | (k', x') :: d' => if Variable_is k' k then Some x' else dict_get d' k
  end.

(** [d.update(pairs)] *)
Definition dict_update (d : point) (pairs : list (variable * Z)) : point :=
  fold_left (fun d kv => dict_set d (fst kv) (snd kv)) pairs d.

Section MoreTerms.
Context {F : Type} `{Function F}.

(** [point2term]. The classes of concrete variables derive from both
    [Variable] and [Function]; [lit] gives the function a variable object
    is. *)
Definition point2term (lit : variable → F) (p : point) (conj : bool) : list F :=
  if conj then
    map (fun v_val => if negb (snd v_val =? 0)
                      then __invert__ (lit (fst v_val)) else lit (fst v_val)) p
  else
    map (fun v_val => if negb (snd v_val =? 0)
                      then lit (fst v_val) else __invert__ (lit (fst v_val))) p.
End MoreTerms.

(** A key of a vector point: a variable or a vector of keys. *)
#[warnings="-register-all"]
Inductive vvar :=
  | VVariable (v : variable)
  | VVector (items : list vvar).

(** A value of a vector point: an int or a sequence of values. *)
#[warnings="-register-all"]
Inductive vval :=
  | VInt (z : Z)
  | VSeq (items : list vval).

Definition flatten_mismatch : exn :=
  ValueError "expected 1:1 mapping from Variable => {0, 1}".

(** [_flatten]: the pairs the generator yields, or what it raises.
    [int(val)] of a sequence and [len(val)] of an int raise [TypeError]. *)
Fixpoint _flatten (v : vvar) (val : vval) : result (list (variable * Z)) :=
  match v with
  | VVariable x =>
      match val with
      | VInt z => Ok [(x, z)]
      | VSeq _ =>
          Raise (TypeError "int() argument must be a string, a bytes-like object or a number, not 'list'")
      end
  | VVector vs =>
      match val with
      | VInt _ => Raise (TypeError "object of type 'int' has no len()")
      | VSeq vals =>
          if negb (length vs =? length vals)%nat then Raise flatten_mismatch
          else
            (fix zipped (vs : list vvar) (vals : list vval)
               : result (list (variable * Z)) :=
               match vs, vals with
               | _var :: vs', _val :: vals' =>
                   pairs ← _flatten _var _val;
                   more ← zipped vs' vals';
                   Ok (pairs ++ more)
               | _, _ => Ok []
               end) vs vals
      end
  end.

(** A vector point is a dict; its items in order. *)
Definition vpoint2point (vpoint : list (vvar * vval)) : result point :=
  fold_left (fun acc v_val =>
               point ← acc;
               pairs ← _flatten (fst v_val) (snd v_val);
               Ok (dict_update point pairs))
            vpoint (Ok []).

(** ** The order on variables *)

(** [x < y] on two sequences: the first place where they differ decides;
    without one, the shorter sequence is the smaller. *)
Fixpoint seq_lt {A} (eqb ltb : A → A → bool) (x y : list A) : bool :=
  match x, y with
  | [], [] => false
  | [], _ :: _ => true
  | _ :: _, [] => false
  | a :: x', b :: y' => if eqb a b then seq_lt eqb ltb x' y' else ltb a b
  end.

(** The code points of a string (the characters of the names [var] lets
    through are ASCII). *)
Definition code_points (s : string) : list N :=
  map Ascii.N_of_ascii (String.list_ascii_of_string s).

Definition str_eqb (s t : string) : bool := bool_decide (s = t).

Definition str_lt (s t : string) : bool :=
  seq_lt N.eqb N.ltb (code_points s) (code_points t).

(** [Variable.__lt__] *)
Definition Variable__lt__ (self other : variable) : bool :=
  if bool_decide (names self = names other)
  then seq_lt Z.eqb Z.ltb (indices self) (indices other)
  else seq_lt str_eqb str_lt (names self) (names other).

(** ** More of the Function class *)

Section MoreDerived.
Context {F : Type} `{Function F}.

(** The property [inputs], which the concrete classes supply. *)
Context (inputs : F → list variable).

Definition restrict (f : F) (p : point) : result F :=
  up ← point2upoint p; Ok (urestrict f up).

Definition vrestrict (f : F) (vpoint : list (vvar * vval)) : result F :=
  p ← vpoint2point vpoint; restrict f p.

Definition iter_domain (f : F) : list point := iter_points (inputs f).

Definition iter_image (f : F) : result (list F) :=
  mapM (restrict f) (iter_points (inputs f)).

Definition iter_relation (f : F) : result (list (point * F)) :=
  mapM (fun p => r ← restrict f p; Ok (p, r)) (iter_points (inputs f)).

(** [self * other]: the array of [other] times [self]. *)
Definition __mul__ (self : F) (other : pyobj) : result (farray F) :=
  match other with
  | PyInt n =>
      if n <? 0
      then Raise (ValueError "expected multiplier to be non-negative")
      else Ok (mk_farray (concat (repeat [self] (Z.to_nat n))))
  | _ => Raise (TypeError "expected multiplier to be an int")
  end.

Definition __rmul__ (self : F) (other : pyobj) : result (farray F) :=
  __mul__ self other.
End MoreDerived.

(** The shape of a key fits the shape of a value. *)
Fixpoint shape_fits (v : vvar) (val : vval) : bool :=
  match v with
  | VVariable _ => match val with VInt _ => true | VSeq _ => false end
  | VVector vs =>
      match val with
      | VInt _ => false
      | VSeq vals =>
          (length vs =? length vals)%nat
          && (fix all_fit (vs : list vvar) (vals : list vval) : bool :=
                match vs, vals with
                | v1 :: vs', x1 :: vals' => shape_fits v1 x1 && all_fit vs' vals'
                | _, _ => true
                end) vs vals
      end
  end.

(** The variables of a key and the ints of a value, left to right. *)
Fixpoint vvar_leaves (v : vvar) : list variable :=
  match v with
  | VVariable x => [x]
  | VVector vs => concat (map vvar_leaves vs)
  end.

Fixpoint vval_leaves (val : vval) : list Z :=
  match val with
  | VInt z => [z]
  | VSeq vals => concat (map vval_leaves vals)
  end.

(** Valid arguments of [var], as names and indices. *)
Definition valid_key (k : key) : Prop :=
  fst k ≠ [] ∧ Forall (fun n => match_name n = true) (fst k)
  ∧ Forall (fun i => 0 ≤ i) (snd k).

(** The subscripts a two-element list takes: 0 and -2 read the first
    element, 1 and -1 the second. *)
Definition reads_zeros (val : Z) : bool := (val =? 0) || (val =? -2).
Definition reads_ones (val : Z) : bool := (val =? 1) || (val =? -1).

(** The ids of the variables of a point whose value passes a test. *)
Definition uniqids_where (test : Z → bool) (p : point) : gset Z :=
  list_to_set (map (fun v_val => uniqid (fst v_val))
                   (List.filter (fun v_val => test (snd v_val)) p)).

(** More that holds of the module state at all times: the ids given out
    have no gaps, the variables stored are distinct objects created
    earlier, and their keys passed the checks of [var]. *)
Record registry_inv (st : registry) : Prop := mk_registry_inv {
  inv_ids_all : ∀ u, 1 ≤ u < _COUNT st → ∃ k, _UNIQIDS st !! k = Some u;
  inv_oid_old : ∀ k v,
      VARIABLES st !! k = Some v → (oid v < next_oid st)%positive;
  inv_oid_inj : ∀ k1 k2 v1 v2,
      VARIABLES st !! k1 = Some v1 → VARIABLES st !! k2 = Some v2 →
      oid v1 = oid v2 → k1 = k2;
  inv_valid : ∀ k v, VARIABLES st !! k = Some v → valid_key k
}.

(** The pairs a vector point assigns, entry by entry, left to right. *)
Definition vpoint_pairs (vpoint : list (vvar * vval)) : list (variable * Z) :=
  concat (map (fun v_val => combine (vvar_leaves (fst v_val))
                                    (vval_leaves (snd v_val))) vpoint).

(** A point seen as a vector point without vectors. *)
Definition point_as_vpoint (p : point) : list (vvar * vval) :=
  map (fun v_val => (VVariable (fst v_val), VInt (snd v_val))) p.

(** * Properties *)

(** ** Bits *)

Lemma bit_on_testbit (num i : Z) :
  0 <= i -> bit_on num i = Z.b2z (Z.testbit num i).
Proof.
  intros Hi. unfold bit_on.
  change 1 with (Z.ones 1). rewrite Z.land_ones by lia.
  change (2 ^ 1) with 2. rewrite <- Z.bit0_mod.
  rewrite Z.shiftr_spec by lia. reflexivity.
Qed.

Lemma bit_on_range (num i : Z) : 0 <= i -> bit_on num i = 0 \/ bit_on num i = 1.
Proof.
  intros Hi. rewrite bit_on_testbit by assumption.
  destruct (Z.testbit num i); simpl; auto.
Qed.

Lemma bit_on_mod (num i n : Z) :
  0 <= i < n -> bit_on (num mod 2 ^ n) i = bit_on num i.
Proof.
  intros Hi. rewrite !bit_on_testbit by lia.
  rewrite Z.mod_pow2_bits_low by lia. reflexivity.
Qed.

(** ** enumerate *)

Lemma enumerate_from_length {A} (l : list A) s :
  length (enumerate_from s l) = length l.
Proof. revert s. induction l as [|x l IH]; intros s; simpl; auto. Qed.

Lemma enumerate_from_fst {A} (l : list A) s i x :
  In (i, x) (enumerate_from s l) -> s <= i < s + Z.of_nat (length l).
Proof.
  revert s. induction l as [|y l IH]; intros s; simpl; [tauto|].
  intros [Heq | Hin].
  - inversion Heq; subst. lia.
  - apply IH in Hin. lia.
Qed.

Lemma enumerate_from_snd {A} (l : list A) s :
  map snd (enumerate_from s l) = l.
Proof. revert s. induction l as [|x l IH]; intros s; simpl; f_equal; auto. Qed.

(** ** Points *)

Lemma dict_set_fresh (d : point) k x :
  ~ In (oid k) (map (fun kv => oid (fst kv)) d) -> dict_set d k x = d ++ [(k, x)].
Proof.
  induction d as [|[k' x'] d IH]; simpl; intros Hk; [reflexivity|].
  unfold Variable_is. destruct (Pos.eqb_spec (oid k') (oid k)) as [E|E].
  - exfalso. apply Hk. left. exact E.
  - rewrite IH; [reflexivity|]. intros Hin. apply Hk. right. exact Hin.
Qed.

Lemma num2point_fold (num : Z) (ivs : list (Z * variable)) (d : point) :
  List.NoDup (map (fun kv => oid (fst kv)) d ++ map (fun iv => oid (snd iv)) ivs) ->
  fold_left (fun d iv => dict_set d (snd iv) (bit_on num (fst iv))) ivs d
  = d ++ point_items num ivs.
Proof.
  revert d. induction ivs as [|[i v] ivs IH]; intros d Hnd; simpl.
  - rewrite app_nil_r. reflexivity.
  - simpl in Hnd. rewrite dict_set_fresh.
    + rewrite IH.
      * rewrite <- app_assoc. reflexivity.
      * rewrite map_app. simpl. rewrite <- app_assoc. simpl. exact Hnd.
    + apply NoDup_remove_2 in Hnd. intros Hin. apply Hnd.
      apply in_or_app. left. exact Hin.
Qed.

(** With pairwise distinct variables nothing is overwritten: the point
    lists [vs[i]] with bit [i] of [num], in the order of [vs]. *)
Lemma num2point_items (num : Z) (vs : list variable) :
  List.NoDup (map oid vs) -> num2point num vs = point_items num (enumerate vs).
Proof.
  intros Hnd. unfold num2point. rewrite num2point_fold; [reflexivity|].
  simpl. rewrite <- (map_map snd oid). unfold enumerate.
  rewrite enumerate_from_snd. exact Hnd.
Qed.

Lemma fold_left_map_fusion {A B C} (f : A -> B -> A) (g : C -> B) l a :
  fold_left f (map g l) a = fold_left (fun a c => f a (g c)) l a.
Proof. revert a. induction l as [|c l IH]; intros a; simpl; auto. Qed.

(** Only the bits at the positions of [vs] matter. *)
Lemma num2point_ext (a b : Z) (vs : list variable) :
  (forall i, 0 <= i < Z.of_nat (length vs) -> bit_on a i = bit_on b i) ->
  num2point a vs = num2point b vs.
Proof.
  intros Hbits. unfold num2point.
  assert (G : forall ivs d,
             (forall i v, In (i, v) ivs -> bit_on a i = bit_on b i) ->
             fold_left (fun d iv => dict_set d (snd iv) (bit_on a (fst iv))) ivs d
             = fold_left (fun d iv => dict_set d (snd iv) (bit_on b (fst iv))) ivs d).
  { induction ivs as [|[i v] ivs IH]; intros d Hin; simpl; [reflexivity|].
    rewrite (Hin i v) by (left; reflexivity).
    apply IH. intros j w Hjw. apply (Hin j w). right. exact Hjw. }
  apply G. intros i v Hin. apply Hbits.
  apply enumerate_from_fst in Hin. lia.
Qed.

Lemma num2upoint_ext (a b : Z) (vs : list variable) :
  (forall i, 0 <= i < Z.of_nat (length vs) -> bit_on a i = bit_on b i) ->
  num2upoint a vs = num2upoint b vs.
Proof.
  intros Hbits. unfold num2upoint.
  assert (G : forall ivs : list (Z * variable),
             (forall i v, In (i, v) ivs -> bit_on a i = bit_on b i) ->
             forall acc,
             fold_left (fun acc iv =>
                          upoint_add acc (bit_on a (fst iv)) (uniqid (snd iv)))
                       ivs acc
             = fold_left (fun acc iv =>
                          upoint_add acc (bit_on b (fst iv)) (uniqid (snd iv)))
                       ivs acc).
  { induction ivs as [|[i v] ivs IH]; intros Hin acc; simpl; [reflexivity|].
    rewrite (Hin i v) by (left; reflexivity).
    apply IH. intros j w Hjw. apply (Hin j w). right. exact Hjw. }
  apply G. intros i v Hin. apply Hbits.
  apply enumerate_from_fst in Hin. lia.
Qed.

(** [num2upoint] never raises: the subscript is always 0 or 1. *)
Lemma num2upoint_ok (num : Z) (vs : list variable) :
  exists up, num2upoint num vs = Ok up.
Proof.
  unfold num2upoint, enumerate.
  assert (G : forall (ivs : list (Z * variable)) up0,
             (forall i v, In (i, v) ivs -> 0 <= i) ->
             exists up,
               fold_left (fun acc iv =>
                            upoint_add acc (bit_on num (fst iv)) (uniqid (snd iv)))
                         ivs (Ok up0) = Ok up).
  { induction ivs as [|[i v] ivs IH]; intros up0 Hin; simpl; [eauto|].
    assert (Hi : 0 <= i) by (apply (Hin i v); left; reflexivity).
    destruct (bit_on_range num i Hi) as [-> | ->]; simpl;
      apply IH; intros j w Hjw; apply (Hin j w); right; exact Hjw. }
  apply G. intros i v Hin. apply enumerate_from_fst in Hin. lia.
Qed.

Lemma point_items_combine (num s : Z) (vs : list variable) (bs : list bool) :
  length bs = length vs ->
  (forall i : nat, (i < length vs)%nat ->
     bit_on num (s + Z.of_nat i) = Z.b2z (nth i bs false)) ->
  point_items num (enumerate_from s vs) = combine vs (map Z.b2z bs).
Proof.
  revert s bs. induction vs as [|v vs IH]; intros s bs Hlen Hbits.
  - reflexivity.
  - destruct bs as [|b bs]; [discriminate|]. simpl in *.
    f_equal.
    + f_equal. specialize (Hbits 0%nat ltac:(lia)). simpl in Hbits.
      rewrite Z.add_0_r in Hbits. exact Hbits.
    + apply IH; [lia|]. intros i Hi.
      specialize (Hbits (S i) ltac:(lia)). simpl nth in Hbits.
      rewrite <- Hbits. f_equal. lia.
Qed.

Lemma point_items_inj (a b s : Z) (vs : list variable) :
  point_items a (enumerate_from s vs) = point_items b (enumerate_from s vs) ->
  forall i : nat, (i < length vs)%nat ->
    bit_on a (s + Z.of_nat i) = bit_on b (s + Z.of_nat i).
Proof.
  revert s. induction vs as [|v vs IH]; intros s Heq i Hi; simpl in *; [lia|].
  inversion Heq as [[Hhd Htl]].
  destruct i as [|i].
  - simpl. rewrite Z.add_0_r. exact Hhd.
  - replace (s + Z.of_nat (S i)) with (s + 1 + Z.of_nat i) by lia.
    apply IH; [exact Htl | lia].
Qed.

Lemma bits2num_range (bs : list bool) :
  0 <= bits2num bs < 2 ^ Z.of_nat (length bs).
Proof.
  induction bs as [|b bs IH]; simpl bits2num; simpl length.
  - simpl. lia.
  - rewrite Nat2Z.inj_succ, Z.pow_succ_r by lia.
    destruct b; simpl Z.b2z; lia.
Qed.

Lemma bits2num_testbit (bs : list bool) (i : nat) :
  Z.testbit (bits2num bs) (Z.of_nat i) = nth i bs false.
Proof.
  revert i. induction bs as [|b bs IH]; intros i; simpl bits2num.
  - rewrite Z.testbit_0_l. destruct i; reflexivity.
  - destruct i as [|i].
    + simpl. apply Z.testbit_0_r.
    + rewrite Nat2Z.inj_succ, Z.testbit_succ_r by lia. simpl. apply IH.
Qed.

(** Two numbers below [2^n] with the same [n] low bits are equal. *)
Lemma low_bits_inj (a b : Z) (n : nat) :
  0 <= a < 2 ^ Z.of_nat n -> 0 <= b < 2 ^ Z.of_nat n ->
  (forall i : nat, (i < n)%nat -> bit_on a (Z.of_nat i) = bit_on b (Z.of_nat i)) ->
  a = b.
Proof.
  intros Ha Hb Hbits.
  rewrite <- (Z.mod_small a (2 ^ Z.of_nat n)) by lia.
  rewrite <- (Z.mod_small b (2 ^ Z.of_nat n)) by lia.
  apply Z.bits_inj'. intros i Hi.
  destruct (Z_lt_dec i (Z.of_nat n)) as [Hlt | Hge].
  - rewrite !Z.mod_pow2_bits_low by lia.
    specialize (Hbits (Z.to_nat i) ltac:(lia)).
    rewrite Z2Nat.id in Hbits by lia.
    rewrite !bit_on_testbit in Hbits by lia.
    destruct (Z.testbit a i), (Z.testbit b i); simpl in Hbits; congruence.
  - rewrite !Z.mod_pow2_bits_high by lia. reflexivity.
Qed.

(** ** range and the enumerations *)

Lemma range_length (n : Z) : length (range n) = Z.to_nat n.
Proof. unfold range. rewrite length_map, length_seq. reflexivity. Qed.

Lemma range_nth_error (n : Z) (k : nat) :
  (k < Z.to_nat n)%nat -> nth_error (range n) k = Some (Z.of_nat k).
Proof.
  intros Hk. unfold range. rewrite nth_error_map.
  rewrite nth_error_nth' with (d := 0%nat) by (rewrite length_seq; exact Hk).
  rewrite seq_nth by exact Hk. reflexivity.
Qed.

Lemma shiftl_1_to_nat (n : nat) : Z.to_nat (Z.shiftl 1 (Z.of_nat n)) = (2 ^ n)%nat.
Proof.
  rewrite Z.shiftl_1_l. change 2 with (Z.of_nat 2).
  rewrite <- Nat2Z.inj_pow. apply Nat2Z.id.
Qed.

Lemma iter_points_length (vs : list variable) :
  length (iter_points vs) = (2 ^ length vs)%nat.
Proof.
  unfold iter_points. rewrite length_map, range_length. apply shiftl_1_to_nat.
Qed.

Lemma iter_points_nth_error (vs : list variable) (k : nat) :
  (k < 2 ^ length vs)%nat ->
  nth_error (iter_points vs) k = Some (num2point (Z.of_nat k) vs).
Proof.
  intros Hk. unfold iter_points. rewrite nth_error_map.
  rewrite range_nth_error by (rewrite shiftl_1_to_nat; exact Hk).
  reflexivity.
Qed.

(** ** Claims on the codec *)

(** C5. For pairwise distinct variables [vs] and every [num] (in
    particular [0 <= num < 2^N]), projecting the typed point of [num] to an
    untyped point gives what [num2upoint] builds directly, and that is a
    value, not an exception. *)
Theorem point2upoint_num2point (num : Z) (vs : list variable) :
  List.NoDup (map oid vs) ->
  0 <= num < 2 ^ Z.of_nat (length vs) ->
  point2upoint (num2point num vs) = num2upoint num vs
  /\ exists up, num2upoint num vs = Ok up.
Proof.
  intros Hnd _. split; [|apply num2upoint_ok].
  rewrite num2point_items by exact Hnd.
  unfold point2upoint, point_items. rewrite fold_left_map_fusion.
  reflexivity.
Qed.

(** C6. For pairwise distinct variables [vs] of length [N], [iter_points]
    yields [2^N] points; the point yielded at position [k] is the one of
    [num = k], so the indices run upwards from 0 to [2^N - 1]; and every
    assignment of bits to [vs] is yielded at exactly one position. *)
Theorem iter_points_complete (vs : list variable) :
  List.NoDup (map oid vs) ->
  length (iter_points vs) = (2 ^ length vs)%nat
  /\ (forall k : nat, (k < 2 ^ length vs)%nat ->
        nth_error (iter_points vs) k = Some (num2point (Z.of_nat k) vs))
  /\ (forall bs : list bool, length bs = length vs ->
        exists! k : nat,
          nth_error (iter_points vs) k = Some (combine vs (map Z.b2z bs))).
Proof.
  intros Hnd. split; [apply iter_points_length|].
  split; [apply iter_points_nth_error|].
  intros bs Hlen.
  assert (Hpoint : num2point (bits2num bs) vs = combine vs (map Z.b2z bs)).
  { rewrite num2point_items by exact Hnd. unfold enumerate.
    apply point_items_combine; [exact Hlen|].
    intros i Hi. rewrite Z.add_0_l, bit_on_testbit by lia.
    rewrite bits2num_testbit. reflexivity. }
  pose proof (bits2num_range bs) as Hrange. rewrite Hlen in Hrange.
  assert (Hpow : Z.of_nat (2 ^ length vs) = 2 ^ Z.of_nat (length vs)).
  { rewrite Nat2Z.inj_pow. reflexivity. }
  exists (Z.to_nat (bits2num bs)). split.
  - rewrite iter_points_nth_error by lia.
    rewrite Z2Nat.id by lia. rewrite Hpoint. reflexivity.
  - intros k' Hk'.
    assert (Hlt : (k' < 2 ^ length vs)%nat).
    { rewrite <- iter_points_length. apply nth_error_Some. congruence. }
    rewrite iter_points_nth_error in Hk' by exact Hlt.
    injection Hk' as Hk'. rewrite <- Hpoint in Hk'.
    rewrite !num2point_items in Hk' by exact Hnd.
    apply Nat2Z.inj. rewrite Z2Nat.id by lia.
    apply (low_bits_inj _ _ (length vs)); [lia | lia |].
    intros i Hi. symmetry.
    apply (point_items_inj _ _ 0 vs Hk' i Hi).
Qed.

(** C10. Only the [N] low-order bits of [num] matter: an index, whatever
    its size, gives the same point and the same untyped point as its
    residue modulo [2^N]; nothing is rejected. *)
Theorem num2point_mod_pow2 (num : Z) (vs : list variable) :
  num2point num vs = num2point (num mod 2 ^ Z.of_nat (length vs)) vs
  /\ num2upoint num vs = num2upoint (num mod 2 ^ Z.of_nat (length vs)) vs
  /\ exists up, num2upoint num vs = Ok up.
Proof.
  split; [|split].
  - apply num2point_ext. intros i Hi. symmetry. apply bit_on_mod. exact Hi.
  - apply num2upoint_ext. intros i Hi. symmetry. apply bit_on_mod. exact Hi.
  - apply num2upoint_ok.
Qed.

(** ** Claims on terms *)

Lemma enumerate_from_nth_error {A} (l : list A) (s : Z) (i : nat) :
  nth_error (enumerate_from s l) i
  = option_map (fun x => (s + Z.of_nat i, x)) (nth_error l i).
Proof.
  revert s i. induction l as [|x l IH]; intros s [|i]; simpl; try reflexivity.
  - rewrite Z.add_0_r. reflexivity.
  - rewrite IH. destruct (nth_error l i); simpl; [|reflexivity].
    do 2 f_equal. lia.
Qed.

Lemma bit_on_truthy (num : Z) (i : nat) :
  negb (bit_on num (Z.of_nat i) =? 0) = Z.testbit num (Z.of_nat i).
Proof.
  rewrite bit_on_testbit by lia.
  destruct (Z.testbit num (Z.of_nat i)); reflexivity.
Qed.

Section TermClaims.
Context {F : Type} `{Function F}.

(** C2, as the code has it. Literal [i] of a minterm ([conj] false) is
    [fs[i]] itself when bit [i] of [num] is 1 and its complement when the
    bit is 0; a maxterm ([conj] true) has it the other way round. *)
Theorem num2term_literal (num : Z) (fs : list F) (i : nat) (f : F) :
  nth_error fs i = Some f ->
  nth_error (num2term num fs false) i
    = Some (if Z.testbit num (Z.of_nat i) then f else __invert__ f)
  /\ nth_error (num2term num fs true) i
    = Some (if Z.testbit num (Z.of_nat i) then __invert__ f else f).
Proof.
  intros Hf. unfold num2term, enumerate.
  rewrite !nth_error_map, enumerate_from_nth_error, Hf.
  cbn [option_map fst snd]. rewrite Z.add_0_l, bit_on_truthy.
  split; reflexivity.
Qed.

End TermClaims.

Lemma num2upoint_eq (num : Z) (vs : list variable) :
  num2upoint num vs = Ok (upoint_of_num num vs).
Proof.
  unfold num2upoint, upoint_of_num, enumerate.
  assert (G : forall (ivs : list (Z * variable)) (up0 : upoint),
             (forall i v, In (i, v) ivs -> 0 <= i) ->
             fold_left (fun acc iv =>
                          upoint_add acc (bit_on num (fst iv)) (uniqid (snd iv)))
                       ivs (Ok up0)
             = Ok (fold_left (fun (up : upoint) iv =>
                                if bit_on num (fst iv) =? 0
                                then ({[uniqid (snd iv)]} ∪ fst up, snd up)
                                else (fst up, {[uniqid (snd iv)]} ∪ snd up))
                             ivs up0)).
  { induction ivs as [|[i v] ivs IH]; intros up0 Hin; simpl; [reflexivity|].
    assert (Hi : 0 <= i) by (apply (Hin i v); left; reflexivity).
    destruct (bit_on_range num i Hi) as [-> | ->]; simpl;
      apply IH; intros j w Hjw; apply (Hin j w); right; exact Hjw. }
  apply G. intros i v Hin. apply enumerate_from_fst in Hin. lia.
Qed.

Lemma mapM_Ok {A B} (f : A -> result B) (g : A -> B) (l : list A) :
  (forall x, f x = Ok (g x)) -> mapM f l = Ok (map g l).
Proof.
  intros Hf. induction l as [|x l IH]; simpl; [reflexivity|].
  rewrite Hf. simpl. rewrite IH. reflexivity.
Qed.

Lemma iter_upoints_eq (vs : list variable) :
  iter_upoints vs
  = Ok (map (fun num => upoint_of_num num vs)
            (range (Z.shiftl 1 (Z.of_nat (length vs))))).
Proof.
  unfold iter_upoints. apply mapM_Ok. intros num. apply num2upoint_eq.
Qed.

Lemma expect_vars_variables (vs : list variable) :
  mapM (fun x => match x with
                 | IsVariable v => Ok v
                 | NotVariable t =>
                     Raise (TypeError ("expected Variable, got " +:+ t))
                 end) (map IsVariable vs) = Ok vs.
Proof.
  induction vs as [|v vs IH]; simpl; [reflexivity|].
  rewrite IH. reflexivity.
Qed.

(** ** Claims on the derived operations *)

Section DerivedClaims.
Context {F : Type} `{Function F}.

Lemma iter_cofactors_variables (f : F) (vs : list variable) :
  iter_cofactors f (VsIterable (map IsVariable vs))
  = Ok (map (fun num => urestrict f (upoint_of_num num vs))
            (range (Z.shiftl 1 (Z.of_nat (length vs))))).
Proof.
  unfold iter_cofactors, _expect_vars.
  rewrite expect_vars_variables. simpl.
  rewrite iter_upoints_eq. simpl. rewrite map_map. reflexivity.
Qed.

(** There is always at least one cofactor: [range(1 << N)] is never
    empty. *)
Lemma iter_cofactors_nonempty (f : F) (vs : vs_arg) :
  iter_cofactors f vs <> Ok [].
Proof.
  unfold iter_cofactors. destruct (_expect_vars vs) as [vs'|e]; simpl;
    [|discriminate].
  rewrite iter_upoints_eq. simpl. intros [= Hnil].
  apply (f_equal (@length F)) in Hnil.
  rewrite !length_map, range_length, shiftl_1_to_nat in Hnil. simpl in Hnil.
  pose proof (Nat.pow_nonzero 2 (length vs') ltac:(lia)). lia.
Qed.

(** C4, as the code has it. With the variable set left out,
    [_expect_vars] gives the empty list, not the support: the only
    cofactor is the restriction of [f] by the empty untyped point. With
    [N] variables given, the cofactors are the restrictions of [f] by the
    [2^N] untyped points of [iter_upoints], in that order. *)
Theorem cofactors_default (f : F) (vs : list variable) :
  _expect_vars VsNone = Ok []
  /\ iter_cofactors f VsNone = Ok [urestrict f (∅, ∅)]
  /\ cofactors f VsNone = Ok [urestrict f (∅, ∅)]
  /\ cofactors f (VsIterable (map IsVariable vs))
     = Ok (map (fun num => urestrict f (upoint_of_num num vs))
               (range (Z.shiftl 1 (Z.of_nat (length vs)))))
  /\ length (map (fun num => urestrict f (upoint_of_num num vs))
                 (range (Z.shiftl 1 (Z.of_nat (length vs)))))
     = (2 ^ length vs)%nat.
Proof.
  split; [reflexivity|]. split; [reflexivity|]. split; [reflexivity|].
  split; [apply iter_cofactors_variables|].
  rewrite length_map, range_length. apply shiftl_1_to_nat.
Qed.

(** C8, as the code has it. [f + g] for two functions is the array of
    the two, never a function; with an array on the right it is [f]
    followed by the items of the array; any other operand raises
    [TypeError]. *)
Theorem add_builds_farray (f g : F) (a : farray F) (t : string) :
  __add__ f (PFunction g) = Ok (PFarray (mk_farray [f; g]))
  /\ __add__ f (PFarray a) = Ok (PFarray (mk_farray (f :: flat a)))
  /\ __add__ f (PObject t) = Raise (TypeError "expected Function or farray")
  /\ __radd__ g (PFunction f) = Ok (PFarray (mk_farray [f; g])).
Proof. repeat split. Qed.
End DerivedClaims.

(** ** The registry invariant *)

Lemma registry_init_wf : registry_wf registry_init.
Proof.
  constructor; simpl.
  - intros k u Hk. rewrite lookup_empty in Hk. discriminate.
  - intros k1 k2 u Hk. rewrite lookup_empty in Hk. discriminate.
  - rewrite map_size_empty. reflexivity.
  - intros k v Hk. rewrite lookup_empty in Hk. discriminate.
Qed.

(** The constructor keeps the invariant and never forgets an id. *)
Lemma Variable__init__wf (ns : list string) (ixs : list Z) (st : registry) :
  registry_wf st ->
  registry_wf (snd (Variable__init__ ns ixs st))
  /\ VARIABLES (snd (Variable__init__ ns ixs st)) = VARIABLES st
  /\ names (fst (Variable__init__ ns ixs st)) = ns
  /\ indices (fst (Variable__init__ ns ixs st)) = ixs
  /\ _UNIQIDS (snd (Variable__init__ ns ixs st)) !! (ns, ixs)
     = Some (uniqid (fst (Variable__init__ ns ixs st)))
  /\ (forall k u, _UNIQIDS st !! k = Some u ->
        _UNIQIDS (snd (Variable__init__ ns ixs st)) !! k = Some u).
Proof.
  intros [Hrange Hinj Hsize Hvars]. unfold Variable__init__.
  destruct (_UNIQIDS st !! (ns, ixs)) as [u|] eqn:Hlook; simpl.
  - split; [constructor; simpl; assumption|]. split_and!; auto.
  - split; [constructor; simpl|].
    + intros k u Hk. destruct (decide ((ns, ixs) = k)) as [<-|Hne].
      * rewrite lookup_insert_eq in Hk. injection Hk as <-.
        assert (0 <= Z.of_nat (size (_UNIQIDS st))) by lia. lia.
      * rewrite lookup_insert_ne in Hk by exact Hne.
        apply Hrange in Hk. lia.
    + intros k1 k2 u Hk1 Hk2.
      destruct (decide ((ns, ixs) = k1)) as [<-|Hne1];
        destruct (decide ((ns, ixs) = k2)) as [<-|Hne2]; [reflexivity| | |].
      * rewrite lookup_insert_eq in Hk1. injection Hk1 as <-.
        rewrite lookup_insert_ne in Hk2 by exact Hne2.
        apply Hrange in Hk2. lia.
      * rewrite lookup_insert_eq in Hk2. injection Hk2 as <-.
        rewrite lookup_insert_ne in Hk1 by exact Hne1.
        apply Hrange in Hk1. lia.
      * rewrite lookup_insert_ne in Hk1 by exact Hne1.
        rewrite lookup_insert_ne in Hk2 by exact Hne2.
        exact (Hinj _ _ _ Hk1 Hk2).
    + rewrite map_size_insert_None by exact Hlook. lia.
    + intros k v Hk. destruct (Hvars k v Hk) as [Hkey Hid].
      split; [exact Hkey|].
      rewrite lookup_insert_ne; [exact Hid|]. intros <-. congruence.
    + split_and!; auto.
      * apply lookup_insert_eq.
      * intros k u Hk. rewrite lookup_insert_ne; [exact Hk|].
        intros <-. congruence.
Qed.

(** So does the lookup of [var]; the variable it returns carries the key
    and the id registered under the key. *)
Lemma var_lookup_wf (k : key) (st : registry) :
  registry_wf st ->
  registry_wf (snd (var_lookup k st))
  /\ (names (fst (var_lookup k st)), indices (fst (var_lookup k st))) = k
  /\ _UNIQIDS (snd (var_lookup k st)) !! k = Some (uniqid (fst (var_lookup k st)))
  /\ VARIABLES (snd (var_lookup k st)) !! k = Some (fst (var_lookup k st))
  /\ (forall k' u, _UNIQIDS st !! k' = Some u ->
        _UNIQIDS (snd (var_lookup k st)) !! k' = Some u).
Proof.
  intros Hwf. unfold var_lookup.
  destruct (VARIABLES st !! k) as [v|] eqn:Hlook; simpl.
  - destruct (wf_vars st Hwf k v Hlook) as [Hkey Hid]. split_and!; auto.
  - destruct k as [ns ixs]. simpl fst. simpl snd.
    destruct (Variable__init__wf ns ixs st Hwf)
      as (Hwf' & Hsame & Hns & Hixs & Hid & Hkeep).
    destruct (Variable__init__ ns ixs st) as [v st'] eqn:Hinit. simpl in *.
    split; [|split_and!; auto].
    + destruct Hwf' as [Hrange Hinj Hsize Hvars].
      constructor; simpl; try assumption.
      intros k v' Hk. destruct (decide ((ns, ixs) = k)) as [<-|Hne].
      * rewrite lookup_insert_eq in Hk. injection Hk as <-.
        rewrite Hns, Hixs. split; [reflexivity | exact Hid].
      * rewrite lookup_insert_ne in Hk by exact Hne. apply Hvars. exact Hk.
    + rewrite Hns, Hixs. reflexivity.
    + apply lookup_insert_eq.
Qed.

Lemma var_inv (name index : pyobj) (st : registry) v st' :
  var name index st = Ok (v, st') ->
  exists k, var_args name index = Ok k /\ var_lookup k st = (v, st').
Proof.
  unfold var. destruct (var_args name index) as [k|e]; simpl.
  - intros [= Heq]. exists k. split; [reflexivity | exact Heq].
  - discriminate.
Qed.

Lemma registry_step_wf (st st' : registry) :
  registry_wf st -> registry_step st st' -> registry_wf st'.
Proof.
  intros Hwf [name index v st1 Hvar | ns ixs].
  - apply var_inv in Hvar as (k & _ & Hlook).
    pose proof (var_lookup_wf k st Hwf) as (Hwf' & _).
    rewrite Hlook in Hwf'. exact Hwf'.
  - apply Variable__init__wf. exact Hwf.
Qed.

Lemma registry_step_keeps (st st' : registry) k u :
  registry_wf st -> registry_step st st' ->
  _UNIQIDS st !! k = Some u -> _UNIQIDS st' !! k = Some u.
Proof.
  intros Hwf [name index v st1 Hvar | ns ixs] Hk.
  - apply var_inv in Hvar as (k0 & _ & Hlook).
    pose proof (var_lookup_wf k0 st Hwf) as (_ & _ & _ & _ & Hkeep).
    rewrite Hlook in Hkeep. apply Hkeep. exact Hk.
  - apply Variable__init__wf; assumption.
Qed.

Lemma registry_steps_wf (st st' : registry) :
  registry_wf st -> rtc registry_step st st' ->
  registry_wf st'
  /\ (forall k u, _UNIQIDS st !! k = Some u -> _UNIQIDS st' !! k = Some u).
Proof.
  intros Hwf Hsteps. induction Hsteps as [st | st st1 st2 Hstep Hsteps IH].
  - split; [exact Hwf | auto].
  - destruct (IH (registry_step_wf _ _ Hwf Hstep)) as [Hwf2 Hkeep].
    split; [exact Hwf2|]. intros k u Hk. apply Hkeep.
    apply (registry_step_keeps st st1); assumption.
Qed.

Lemma reachable_wf (st : registry) : reachable st -> registry_wf st.
Proof. intros Hr. apply (registry_steps_wf registry_init st registry_init_wf Hr). Qed.

(** A variable once stored in [VARIABLES] stays there. *)
Lemma registry_step_keeps_var (st st' : registry) k v :
  registry_step st st' ->
  VARIABLES st !! k = Some v -> VARIABLES st' !! k = Some v.
Proof.
  intros [name index v1 st1 Hvar | ns ixs] Hk.
  - apply var_inv in Hvar as (k0 & _ & Hlook). unfold var_lookup in Hlook.
    destruct (VARIABLES st !! k0) as [v0|] eqn:Hk0.
    + injection Hlook as _ <-. exact Hk.
    + destruct (Variable__init__ k0.1 k0.2 st) as [v' st2] eqn:Hinit.
      assert (Hsame : VARIABLES st2 = VARIABLES st).
      { unfold Variable__init__ in Hinit.
        destruct (_UNIQIDS st !! (k0.1, k0.2)); injection Hinit as _ <-;
          reflexivity. }
      injection Hlook as _ <-. simpl. rewrite Hsame.
      rewrite lookup_insert_ne; [exact Hk|]. intros <-. congruence.
  - unfold Variable__init__. destruct (_UNIQIDS st !! (ns, ixs)); exact Hk.
Qed.

Lemma registry_steps_keep_var (st st' : registry) k v :
  rtc registry_step st st' ->
  VARIABLES st !! k = Some v -> VARIABLES st' !! k = Some v.
Proof.
  intros Hsteps. induction Hsteps as [st | st st1 st2 Hstep Hsteps IH]; [auto|].
  intros Hk. apply IH. apply (registry_step_keeps_var st st1); assumption.
Qed.

(** What one call of [var] does, by the state of the two dicts. *)
Lemma var_lookup_cases (k : key) (st : registry) :
  match VARIABLES st !! k with
  | Some v0 => var_lookup k st = (v0, st)
  | None =>
      match _UNIQIDS st !! k with
      | Some u =>
          uniqid (fst (var_lookup k st)) = u
          /\ _COUNT (snd (var_lookup k st)) = _COUNT st
      | None =>
          uniqid (fst (var_lookup k st)) = _COUNT st
          /\ _COUNT (snd (var_lookup k st)) = _COUNT st + 1
      end
  end.
Proof.
  unfold var_lookup. destruct (VARIABLES st !! k) as [v0|]; [reflexivity|].
  destruct k as [ns ixs]. unfold Variable__init__. simpl fst. simpl snd.
  destruct (_UNIQIDS st !! (ns, ixs)); simpl; split; reflexivity.
Qed.

(** Two calls of [var] that return, with any calls in between. *)
Lemma var_var_identity (st st1 st2 st3 : registry)
    (name1 index1 name2 index2 : pyobj) (v1 v2 : variable) :
  reachable st ->
  var name1 index1 st = Ok (v1, st1) ->
  rtc registry_step st1 st2 ->
  var name2 index2 st2 = Ok (v2, st3) ->
  exists k1 k2 : key,
    var_args name1 index1 = Ok k1 /\ var_args name2 index2 = Ok k2
    /\ (names v1, indices v1) = k1 /\ (names v2, indices v2) = k2
    /\ (k1 = k2 <-> uniqid v1 = uniqid v2)
    /\ (k1 = k2 -> v2 = v1)
    /\ match VARIABLES st !! k1 with
       | Some v0 => v1 = v0 /\ st1 = st
       | None =>
           match _UNIQIDS st !! k1 with
           | Some u => uniqid v1 = u /\ _COUNT st1 = _COUNT st
           | None => uniqid v1 = _COUNT st /\ _COUNT st1 = _COUNT st + 1
           end
       end
    /\ 1 <= uniqid v1
    /\ _COUNT registry_init = 1
    /\ _COUNT st = 1 + Z.of_nat (size (_UNIQIDS st)).
Proof.
  intros Hreach Hvar1 Hsteps Hvar2.
  pose proof (reachable_wf st Hreach) as Hwf.
  destruct (var_inv _ _ _ _ _ Hvar1) as (k1 & Hargs1 & Hlook1).
  destruct (var_inv _ _ _ _ _ Hvar2) as (k2 & Hargs2 & Hlook2).
  pose proof (var_lookup_wf k1 st Hwf) as (Hwf1 & Hkey1 & Hid1 & Hstored1 & _).
  rewrite Hlook1 in Hwf1, Hkey1, Hid1, Hstored1. simpl in Hkey1, Hid1, Hstored1.
  destruct (registry_steps_wf st1 st2 Hwf1 Hsteps) as [Hwf2 Hkeep12].
  pose proof (var_lookup_wf k2 st2 Hwf2) as (Hwf3 & Hkey2 & Hid2 & _ & Hkeep23).
  rewrite Hlook2 in Hwf3, Hkey2, Hid2, Hkeep23. simpl in Hkey2, Hid2, Hkeep23.
  assert (Hid1' : _UNIQIDS st3 !! k1 = Some (uniqid v1)) by auto.
  exists k1, k2. split_and!; try assumption.
  - split.
    + intros <-. congruence.
    + intros Heq. rewrite <- Heq in Hid2.
      exact (wf_ids_inj st3 Hwf3 _ _ _ Hid1' Hid2).
  - intros <-.
    pose proof (registry_steps_keep_var st1 st2 k1 v1 Hsteps Hstored1) as Hk.
    unfold var_lookup in Hlook2. rewrite Hk in Hlook2. congruence.
  - pose proof (var_lookup_cases k1 st) as Hcases. rewrite Hlook1 in Hcases.
    destruct (VARIABLES st !! k1); [split; congruence|exact Hcases].
  - apply (wf_ids_range st3 Hwf3 k1). exact Hid1'.
  - reflexivity.
  - pose proof (wf_ids_size st Hwf). lia.
Qed.

Lemma run_call_step (c : call) (st : registry) :
  rtc registry_step st (run_call c st).
Proof.
  destruct c as [name index | ns ixs]; simpl.
  - destruct (var name index st) as [[v st']|e] eqn:Hvar.
    + apply rtc_once. exact (step_var st name index v st' Hvar).
    + apply rtc_refl.
  - apply rtc_once. apply step_Variable.
Qed.

Lemma run_calls_steps (calls : list call) (st : registry) :
  rtc registry_step st (run_calls calls st).
Proof.
  revert st. induction calls as [|c calls IH]; intros st; simpl.
  - apply rtc_refl.
  - eapply rtc_trans; [apply run_call_step | apply IH].
Qed.

(** ** Claims on the registry *)

(** C1. Let the module run any calls, then a call of [var] whose
    arguments pass the checks with key [k1], then any further calls, then
    a call of [var] whose arguments pass the checks with key [k2]. Both
    calls return a variable, which carries its key as [(names, indices)],
    and the ids are equal exactly when the keys are; with equal keys the
    second call returns the very object of the first. A call whose key
    has no id yet takes the value of [_COUNT] as id and adds one to
    [_COUNT]; a call that finds its key in [VARIABLES] returns the stored
    variable and changes nothing. Ids are positive, and the counter, 1 at
    start, is always one more than the number of ids given out. *)
Theorem var_uniqid_identity (before between : list call)
    (name1 index1 name2 index2 : pyobj) (k1 k2 : key) :
  var_args name1 index1 = Ok k1 ->
  var_args name2 index2 = Ok k2 ->
  exists (v1 v2 : variable) (st1 st3 : registry),
    let st := run_calls before registry_init in
    var name1 index1 st = Ok (v1, st1)
    /\ var name2 index2 (run_calls between st1) = Ok (v2, st3)
    /\ (names v1, indices v1) = k1 /\ (names v2, indices v2) = k2
    /\ (k1 = k2 <-> uniqid v1 = uniqid v2)
    /\ (k1 = k2 -> v2 = v1)
    /\ match VARIABLES st !! k1 with
       | Some v0 => v1 = v0 /\ st1 = st
       | None =>
           match _UNIQIDS st !! k1 with
           | Some u => uniqid v1 = u /\ _COUNT st1 = _COUNT st
           | None => uniqid v1 = _COUNT st /\ _COUNT st1 = _COUNT st + 1
           end
       end
    /\ 1 <= uniqid v1
    /\ _COUNT registry_init = 1
    /\ _COUNT st = 1 + Z.of_nat (size (_UNIQIDS st)).
Proof.
  intros Hargs1 Hargs2.
  set (st := run_calls before registry_init).
  destruct (var_lookup k1 st) as [v1 st1] eqn:Hlook1.
  destruct (var_lookup k2 (run_calls between st1)) as [v2 st3] eqn:Hlook2.
  assert (Hvar1 : var name1 index1 st = Ok (v1, st1)).
  { unfold var. rewrite Hargs1. simpl. rewrite Hlook1. reflexivity. }
  assert (Hvar2 : var name2 index2 (run_calls between st1) = Ok (v2, st3)).
  { unfold var. rewrite Hargs2. simpl. rewrite Hlook2. reflexivity. }
  exists v1, v2, st1, st3. simpl.
  destruct (var_var_identity st st1 (run_calls between st1) st3
              name1 index1 name2 index2 v1 v2
              (run_calls_steps before registry_init) Hvar1
              (run_calls_steps between st1) Hvar2)
    as (k1' & k2' & Hk1 & Hk2 & H).
  assert (k1' = k1) as -> by congruence.
  assert (k2' = k2) as -> by congruence.
  split; [exact Hvar1|]. split; [exact Hvar2|]. exact H.
Qed.

(** ** Claims on threads *)

(** The lock a call creates is free when the call acquires it: the call
    never waits, whatever the other threads hold. *)
Lemma own_lock_is_free (sh : shared) (k : key) :
  next_lock sh ∉ held sh ->
  exists sh1 lock sh2,
    thread_step sh (AtNewLock k) = Some (sh1, AtAcquire k lock)
    /\ thread_step sh1 (AtAcquire k lock) = Some (sh2, AtUniqidsLookup k lock).
Proof.
  intros Hfree. simpl. eexists _, _, _. split; [reflexivity|]. simpl.
  destruct (decide (next_lock sh ∈ held sh)); [contradiction | reflexivity].
Qed.

(** A thread that runs alone does what [var_lookup] does. *)
Lemma thread_alone_var_lookup (sh : shared) (k : key) :
  next_lock sh ∉ held sh ->
  exists sh',
    run_schedule (repeat 0%nat 10) (sh, [AtVariablesLookup k])
    = (sh', [Returned (fst (var_lookup k (reg sh)))])
    /\ reg sh' = snd (var_lookup k (reg sh)).
Proof.
  intros Hfree. destruct sh as [r h n]. simpl in Hfree.
  unfold var_lookup, run_schedule. simpl.
  unfold schedule_step at 10. simpl.
  destruct (VARIABLES r !! k) as [v|] eqn:Hv; simpl.
  - eexists. split; reflexivity.
  - unfold schedule_step at 9. simpl.
    unfold schedule_step at 8. simpl.
    destruct (decide (n ∈ h)) as [Hin|_]; [contradiction|]. simpl.
    unfold schedule_step at 7. simpl.
    destruct k as [ns ixs]. unfold Variable__init__. simpl.
    destruct (_UNIQIDS r !! (ns, ixs)) as [u|] eqn:Hu; simpl.
    + eexists. split; reflexivity.
    + eexists. split; reflexivity.
Qed.

(** C9, as the code has it. [Variable.__init__] evaluates
    [threading.Lock()] in every call, so each call acquires a lock of its
    own and no call ever waits for another. Two threads that intern the
    same key and interleave as [interleaving] says both miss in
    [VARIABLES] and in [_UNIQIDS], and return variables with the ids 1
    and 2; run one after the other they both get the id 1. *)
Theorem var_two_threads_two_ids :
  returned_uniqids (run_schedule interleaving two_threads) = [Some 1; Some 2]
  /\ returned_uniqids
       (run_schedule (repeat 0%nat 10 ++ repeat 1%nat 10) two_threads)
     = [Some 1; Some 1].
Proof. split; vm_compute; reflexivity. Qed.

(** ** The claims on concrete inputs *)


(** C2 as stated fails: bit 0 of 0 is 0, and the minterm of index 0
    over [(a)] is [(~a)], not [(a)]; the maxterm is [(a)], not [(~a)]. *)
Lemma num2term_bit0_positive_fails :
  Z.testbit 0 0 = false
  /\ nth_error (num2term 0 [EVar ex_a] false) 0 = Some (ENot (EVar ex_a))
  /\ nth_error (num2term 0 [EVar ex_a] false) 0 <> Some (EVar ex_a)
  /\ nth_error (num2term 0 [EVar ex_a] true) 0 = Some (EVar ex_a)
  /\ nth_error (num2term 0 [EVar ex_a] true) 0 <> Some (ENot (EVar ex_a)).
Proof. split_and!; try reflexivity; vm_compute; discriminate. Qed.

(** C4 as stated fails: the function [a] has support [(a)] and two
    cofactors over it, but [cofactors] without argument gives one, the
    function itself. *)
Lemma cofactors_default_not_support :
  support (EVar ex_a) = [ex_a]
  /\ cardinality (EVar ex_a) = 2
  /\ cofactors (EVar ex_a) VsNone = Ok [EVar ex_a]
  /\ cofactors (EVar ex_a) (VsIterable (map IsVariable (support (EVar ex_a))))
     = Ok [EZero; EOne]
  /\ cofactors (EVar ex_a) VsNone
     <> cofactors (EVar ex_a)
          (VsIterable (map IsVariable (support (EVar ex_a)))).
Proof. split_and!; try (vm_compute; reflexivity); vm_compute; discriminate. Qed.

(** C8 as stated fails: [a + b] is the array [(a, b)], not the
    function [a | b]. *)
Lemma add_is_not_disjunction :
  __add__ (EVar ex_a) (PFunction (EVar ex_b))
    = Ok (PFarray (mk_farray [EVar ex_a; EVar ex_b]))
  /\ __add__ (EVar ex_a) (PFunction (EVar ex_b))
     <> Ok (PFunction (__or__ (EVar ex_a) (EVar ex_b))).
Proof. split; [reflexivity | discriminate]. Qed.

Lemma ex_a_b_distinct : List.NoDup (map oid [ex_a; ex_b]).
Proof.
  apply List.NoDup_cons; [simpl; intros [E | []]; discriminate E|].
  apply List.NoDup_cons; [simpl; tauto | apply List.NoDup_nil].
Defined.

Lemma var_uniqid_identity_witness :
  var_args (PyStr "a") PyNone = Ok (["a"], [])
  /\ var_args (PyStr "a") (PyInt 0) = Ok (["a"], [0])
  /\ exists (v1 v2 : variable) (st1 st3 : registry),
    let st := run_calls [] registry_init in
    var (PyStr "a") PyNone st = Ok (v1, st1)
    /\ var (PyStr "a") (PyInt 0) (run_calls [CallVar (PyStr "b") PyNone] st1)
       = Ok (v2, st3)
    /\ (names v1, indices v1) = (["a"], [])
    /\ (names v2, indices v2) = (["a"], [0])
    /\ ((["a"], []) = (["a"], [0]) <-> uniqid v1 = uniqid v2)
    /\ ((["a"], []) = (["a"], [0]) -> v2 = v1)
    /\ match VARIABLES st !! (["a"], []) with
       | Some v0 => v1 = v0 /\ st1 = st
       | None =>
           match _UNIQIDS st !! (["a"], []) with
           | Some u => uniqid v1 = u /\ _COUNT st1 = _COUNT st
           | None => uniqid v1 = _COUNT st /\ _COUNT st1 = _COUNT st + 1
           end
       end
    /\ 1 <= uniqid v1
    /\ _COUNT registry_init = 1
    /\ _COUNT st = 1 + Z.of_nat (size (_UNIQIDS st)).
Proof.
  split; [reflexivity|]. split; [reflexivity|].
  apply (var_uniqid_identity [] [CallVar (PyStr "b") PyNone]
           (PyStr "a") PyNone (PyStr "a") (PyInt 0)); reflexivity.
Defined.

Lemma num2term_literal_witness :
  nth_error [EVar ex_a; EVar ex_b] 1 = Some (EVar ex_b)
  /\ nth_error (num2term 2 [EVar ex_a; EVar ex_b] false) 1
       = Some (if Z.testbit 2 (Z.of_nat 1) then EVar ex_b
               else __invert__ (EVar ex_b))
  /\ nth_error (num2term 2 [EVar ex_a; EVar ex_b] true) 1
       = Some (if Z.testbit 2 (Z.of_nat 1) then __invert__ (EVar ex_b)
               else EVar ex_b).
Proof.
  split; [reflexivity|].
  apply (num2term_literal 2 [EVar ex_a; EVar ex_b] 1 (EVar ex_b)).
  reflexivity.
Defined.

Lemma point2upoint_num2point_witness :
  List.NoDup (map oid [ex_a; ex_b])
  /\ 0 <= 2 < 2 ^ Z.of_nat (length [ex_a; ex_b])
  /\ point2upoint (num2point 2 [ex_a; ex_b]) = num2upoint 2 [ex_a; ex_b]
  /\ exists up, num2upoint 2 [ex_a; ex_b] = Ok up.
Proof.
  split; [exact ex_a_b_distinct|]. split; [simpl; lia|].
  apply (point2upoint_num2point 2 [ex_a; ex_b]);
    [exact ex_a_b_distinct | simpl; lia].
Defined.

Lemma iter_points_complete_witness :
  List.NoDup (map oid [ex_a; ex_b])
  /\ length (iter_points [ex_a; ex_b]) = (2 ^ length [ex_a; ex_b])%nat
  /\ (forall k : nat, (k < 2 ^ length [ex_a; ex_b])%nat ->
        nth_error (iter_points [ex_a; ex_b]) k
        = Some (num2point (Z.of_nat k) [ex_a; ex_b]))
  /\ (forall bs : list bool, length bs = length [ex_a; ex_b] ->
        exists! k : nat,
          nth_error (iter_points [ex_a; ex_b]) k
          = Some (combine [ex_a; ex_b] (map Z.b2z bs))).
Proof.
  split; [exact ex_a_b_distinct|].
  apply (iter_points_complete [ex_a; ex_b]). exact ex_a_b_distinct.
Defined.

(** * Further properties *)

(** ** Looking a variable up in a point *)

Lemma point_items_get (num s : Z) (vs : list variable) (i : nat) (v : variable) :
  List.NoDup (map oid vs) ->
  nth_error vs i = Some v ->
  dict_get (point_items num (enumerate_from s vs)) v
  = Some (bit_on num (s + Z.of_nat i)).
Proof.
  revert s i. induction vs as [|w vs IH]; intros s i Hnd Hi.
  - destruct i; discriminate.
  - simpl in Hnd. inversion Hnd as [|x l Hnotin Hnd']; subst.
    destruct i as [|i]; simpl in *.
    + injection Hi as ->. unfold Variable_is. rewrite Pos.eqb_refl.
      rewrite Z.add_0_r. reflexivity.
    + unfold Variable_is. destruct (Pos.eqb_spec (oid w) (oid v)) as [E|E].
      * exfalso. apply Hnotin. rewrite E. apply in_map.
        apply nth_error_In with (n := i). exact Hi.
      * rewrite (IH (s + 1) i Hnd' Hi). do 2 f_equal. lia.
Qed.

Lemma point_items_keys (num : Z) (ivs : list (Z * variable)) :
  map fst (point_items num ivs) = map snd ivs.
Proof. unfold point_items. rewrite map_map. reflexivity. Qed.

(** X1. In the point of [num] over pairwise distinct variables, the keys
    are the variables in their order and [vs[i]] maps to bit [i] of
    [num]. *)
Theorem num2point_get (num : Z) (vs : list variable) (i : nat) (v : variable) :
  List.NoDup (map oid vs) ->
  nth_error vs i = Some v ->
  map fst (num2point num vs) = vs
  /\ dict_get (num2point num vs) v = Some (Z.b2z (Z.testbit num (Z.of_nat i))).
Proof.
  intros Hnd Hi. rewrite num2point_items by exact Hnd. split.
  - rewrite point_items_keys. apply enumerate_from_snd.
  - unfold enumerate. rewrite (point_items_get num 0 vs i v Hnd Hi).
    rewrite Z.add_0_l, bit_on_testbit by lia. reflexivity.
Qed.

Lemma num2point_get_witness :
  List.NoDup (map oid [ex_a; ex_b])
  /\ nth_error [ex_a; ex_b] 1 = Some ex_b
  /\ map fst (num2point 2 [ex_a; ex_b]) = [ex_a; ex_b]
  /\ dict_get (num2point 2 [ex_a; ex_b]) ex_b
     = Some (Z.b2z (Z.testbit 2 (Z.of_nat 1))).
Proof.
  split; [exact ex_a_b_distinct|]. split; [reflexivity|].
  apply (num2point_get 2 [ex_a; ex_b] 1 ex_b);
    [exact ex_a_b_distinct | reflexivity].
Defined.

(** ** The two sets of an untyped point *)

Lemma upoint_fold_elem (num s : Z) (vs : list variable) (up0 : upoint) (u : Z) :
  0 <= s ->
  let up := fold_left (fun (up : upoint) iv =>
                         if bit_on num (fst iv) =? 0
                         then ({[uniqid (snd iv)]} ∪ fst up, snd up)
                         else (fst up, {[uniqid (snd iv)]} ∪ snd up))
                      (enumerate_from s vs) up0 in
  (u ∈ fst up <->
     u ∈ fst up0 \/ exists (i : nat) v, nth_error vs i = Some v /\ uniqid v = u
                       /\ Z.testbit num (s + Z.of_nat i) = false)
  /\ (u ∈ snd up <->
     u ∈ snd up0 \/ exists (i : nat) v, nth_error vs i = Some v /\ uniqid v = u
                       /\ Z.testbit num (s + Z.of_nat i) = true).
Proof.
  revert s up0. induction vs as [|w vs IH]; intros s up0 Hs; simpl.
  - split; (split; [auto | intros [Hin | (i & v & Hi & _)]; [exact Hin|]]);
      destruct i; discriminate.
  - destruct (IH (s + 1)
                (if bit_on num s =? 0
                 then ({[uniqid w]} ∪ fst up0, snd up0)
                 else (fst up0, {[uniqid w]} ∪ snd up0)) ltac:(lia))
      as [IHz IHo].
    simpl in *. rewrite IHz, IHo. clear IHz IHo IH.
    rewrite bit_on_testbit by lia.
    assert (Hshift : forall b,
      (exists (i : nat) v, nth_error (w :: vs) i = Some v /\ uniqid v = u
                           /\ Z.testbit num (s + Z.of_nat i) = b)
      <-> (uniqid w = u /\ Z.testbit num s = b)
          \/ exists (i : nat) v, nth_error vs i = Some v /\ uniqid v = u
                                 /\ Z.testbit num (s + 1 + Z.of_nat i) = b).
    { intros b. split.
      - intros ([|i] & v & Hi & Hu & Hb); simpl in Hi.
        + injection Hi as ->. rewrite Z.add_0_r in Hb. left. auto.
        + right. exists i, v. split_and!; auto.
          rewrite <- Hb. f_equal. lia.
      - intros [[Hu Hb] | (i & v & Hi & Hu & Hb)].
        + exists 0%nat, w. simpl. rewrite Z.add_0_r. auto.
        + exists (S i), v. split_and!; auto.
          rewrite <- Hb. f_equal. lia. }
    rewrite !Hshift. clear Hshift.
    destruct (Z.testbit num s); simpl; split; set_solver.
Qed.

Lemma num2upoint_sets (num : Z) (vs : list variable) :
  exists zeros ones : gset Z,
    num2upoint num vs = Ok (zeros, ones)
    /\ (forall u, u ∈ zeros <->
          exists (i : nat) v, nth_error vs i = Some v /\ uniqid v = u
                              /\ Z.testbit num (Z.of_nat i) = false)
    /\ (forall u, u ∈ ones <->
          exists (i : nat) v, nth_error vs i = Some v /\ uniqid v = u
                              /\ Z.testbit num (Z.of_nat i) = true).
Proof.
  exists (fst (upoint_of_num num vs)), (snd (upoint_of_num num vs)).
  split; [rewrite num2upoint_eq; destruct (upoint_of_num num vs); reflexivity|].
  split; intros u;
    destruct (upoint_fold_elem num 0 vs (∅, ∅) u ltac:(lia)) as [Hz Ho];
    simpl in Hz, Ho; unfold upoint_of_num, enumerate.
  - rewrite Hz. split; [intros [Hin | Hex]; [set_solver | exact Hex] | auto].
  - rewrite Ho. split; [intros [Hin | Hex]; [set_solver | exact Hex] | auto].
Qed.

(** X2. [num2upoint] returns a pair [(zeros, ones)]: [zeros] holds the
    ids of the variables whose bit in [num] is 0, [ones] those whose bit
    is 1, and nothing else. *)
Theorem num2upoint_elem (num : Z) (vs : list variable) :
  exists zeros ones : gset Z,
    num2upoint num vs = Ok (zeros, ones)
    /\ (forall u, u ∈ zeros <->
          exists (i : nat) v, nth_error vs i = Some v /\ uniqid v = u
                              /\ Z.testbit num (Z.of_nat i) = false)
    /\ (forall u, u ∈ ones <->
          exists (i : nat) v, nth_error vs i = Some v /\ uniqid v = u
                              /\ Z.testbit num (Z.of_nat i) = true).
Proof. apply num2upoint_sets. Qed.

Lemma uniqid_index_unique (vs : list variable) (i j : nat) (v w : variable) :
  List.NoDup (map uniqid vs) ->
  nth_error vs i = Some v -> nth_error vs j = Some w ->
  uniqid v = uniqid w -> i = j.
Proof.
  intros Hnd Hi Hj Hu.
  apply (proj1 (List.NoDup_nth_error (map uniqid vs)) Hnd).
  - rewrite length_map. apply nth_error_Some. congruence.
  - rewrite !nth_error_map, Hi, Hj. simpl. congruence.
Qed.

(** X3. The two sets of [num2upoint] together are the ids of [vs]; when
    the ids of [vs] are pairwise distinct the two sets are disjoint. *)
Theorem num2upoint_partition (num : Z) (vs : list variable) :
  List.NoDup (map uniqid vs) ->
  exists zeros ones : gset Z,
    num2upoint num vs = Ok (zeros, ones)
    /\ zeros ∪ ones = list_to_set (map uniqid vs)
    /\ zeros ∩ ones = ∅.
Proof.
  intros Hnd.
  destruct (num2upoint_sets num vs) as (zeros & ones & Heq & Hz & Ho).
  exists zeros, ones. split; [exact Heq|]. split.
  - apply set_eq. intros u. rewrite elem_of_union, Hz, Ho.
    rewrite elem_of_list_to_set, list_elem_of_In, in_map_iff. split.
    + intros [(i & v & Hi & Hu & _) | (i & v & Hi & Hu & _)];
        exists v; (split; [exact Hu | eapply nth_error_In; exact Hi]).
    + intros (v & Hu & Hin). apply In_nth_error in Hin as [i Hi].
      destruct (Z.testbit num (Z.of_nat i)) eqn:Hb; [right | left];
        exists i, v; auto.
  - apply set_eq. intros u. rewrite elem_of_intersection, Hz, Ho.
    split; [|set_solver].
    intros [(i & v & Hi & Hu & Hb) (j & w & Hj & Hw & Hb')].
    assert (i = j) as -> by (eapply uniqid_index_unique; eauto; congruence).
    congruence.
Qed.

Lemma ex_a_b_uniqids : List.NoDup (map uniqid [ex_a; ex_b]).
Proof.
  apply List.NoDup_cons; [simpl; intros [E | []]; discriminate E|].
  apply List.NoDup_cons; [simpl; tauto | apply List.NoDup_nil].
Defined.

Lemma num2upoint_partition_witness :
  List.NoDup (map uniqid [ex_a; ex_b])
  /\ exists zeros ones : gset Z,
       num2upoint 2 [ex_a; ex_b] = Ok (zeros, ones)
       /\ zeros ∪ ones = list_to_set (map uniqid [ex_a; ex_b])
       /\ zeros ∩ ones = ∅.
Proof.
  split; [exact ex_a_b_uniqids|].
  apply (num2upoint_partition 2 [ex_a; ex_b]). exact ex_a_b_uniqids.
Defined.

Lemma upoint_of_num_bits (a b : Z) (vs : list variable) :
  List.NoDup (map uniqid vs) ->
  upoint_of_num a vs = upoint_of_num b vs ->
  forall i : nat, (i < length vs)%nat ->
    bit_on a (Z.of_nat i) = bit_on b (Z.of_nat i).
Proof.
  intros Hnd Heq i Hi.
  destruct (nth_error vs i) as [v|] eqn:Hv;
    [|apply nth_error_None in Hv; lia].
  rewrite !bit_on_testbit by lia. f_equal.
  destruct (upoint_fold_elem a 0 vs (∅, ∅) (uniqid v) ltac:(lia)) as [_ Ha].
  destruct (upoint_fold_elem b 0 vs (∅, ∅) (uniqid v) ltac:(lia)) as [_ Hb].
  fold (enumerate vs) in Ha, Hb. fold (upoint_of_num a vs) in Ha.
  fold (upoint_of_num b vs) in Hb. simpl in Ha, Hb. rewrite Heq in Ha.
  assert (Hone : forall n, uniqid v ∈ snd (upoint_of_num b vs) ->
            (uniqid v ∈ snd (upoint_of_num b vs) <->
             uniqid v ∈ (∅ : gset Z)
             \/ exists (j : nat) w, nth_error vs j = Some w
                  /\ uniqid w = uniqid v
                  /\ Z.testbit n (0 + Z.of_nat j) = true) ->
            Z.testbit n (Z.of_nat i) = true).
  { intros n Hin Hn. apply Hn in Hin as [Hin | (j & w & Hj & Hw & Hbit)];
      [set_solver|].
    assert (j = i) as -> by (eapply uniqid_index_unique; eauto).
    exact Hbit. }
  destruct (Z.testbit a (Z.of_nat i)) eqn:Hta;
    destruct (Z.testbit b (Z.of_nat i)) eqn:Htb; try reflexivity.
  - assert (Hin : uniqid v ∈ snd (upoint_of_num b vs)).
    { apply Ha. right. exists i, v. auto. }
    rewrite (Hone b Hin Hb) in Htb. discriminate.
  - assert (Hin : uniqid v ∈ snd (upoint_of_num b vs)).
    { apply Hb. right. exists i, v. auto. }
    rewrite (Hone a Hin Ha) in Hta. discriminate.
Qed.

(** X4. For variables with pairwise distinct ids [iter_upoints] yields
    [2^N] untyped points, the one of [num = k] at position [k], and no
    untyped point twice. *)
Theorem iter_upoints_complete (vs : list variable) :
  List.NoDup (map uniqid vs) ->
  exists ups : list upoint,
    iter_upoints vs = Ok ups
    /\ length ups = (2 ^ length vs)%nat
    /\ (forall k : nat, (k < 2 ^ length vs)%nat ->
          option_map Ok (nth_error ups k) = Some (num2upoint (Z.of_nat k) vs))
    /\ List.NoDup ups.
Proof.
  intros Hnd. rewrite iter_upoints_eq. eexists. split; [reflexivity|].
  assert (Hnth : forall k : nat, (k < 2 ^ length vs)%nat ->
            nth_error (map (fun num => upoint_of_num num vs)
                         (range (Z.shiftl 1 (Z.of_nat (length vs))))) k
            = Some (upoint_of_num (Z.of_nat k) vs)).
  { intros k Hk. rewrite nth_error_map, range_nth_error
      by (rewrite shiftl_1_to_nat; exact Hk). reflexivity. }
  assert (Hlen : length (map (fun num => upoint_of_num num vs)
                           (range (Z.shiftl 1 (Z.of_nat (length vs)))))
                 = (2 ^ length vs)%nat).
  { rewrite length_map, range_length. apply shiftl_1_to_nat. }
  split; [exact Hlen|]. split.
  - intros k Hk. rewrite (Hnth k Hk). simpl. rewrite num2upoint_eq.
    reflexivity.
  - apply List.NoDup_nth_error. intros i j Hi Hij. rewrite Hlen in Hi.
    assert (Hj : (j < 2 ^ length vs)%nat).
    { rewrite <- Hlen. apply nth_error_Some. rewrite <- Hij, (Hnth i Hi).
      discriminate. }
    rewrite (Hnth i Hi), (Hnth j Hj) in Hij. injection Hij as Hij.
    assert (Hpow : Z.of_nat (2 ^ length vs) = 2 ^ Z.of_nat (length vs)).
    { rewrite Nat2Z.inj_pow. reflexivity. }
    apply Nat2Z.inj. apply (low_bits_inj _ _ (length vs)); [lia | lia |].
    apply upoint_of_num_bits; assumption.
Qed.

Lemma iter_upoints_complete_witness :
  List.NoDup (map uniqid [ex_a; ex_b])
  /\ exists ups : list upoint,
    iter_upoints [ex_a; ex_b] = Ok ups
    /\ length ups = (2 ^ length [ex_a; ex_b])%nat
    /\ (forall k : nat, (k < 2 ^ length [ex_a; ex_b])%nat ->
          option_map Ok (nth_error ups k)
          = Some (num2upoint (Z.of_nat k) [ex_a; ex_b]))
    /\ List.NoDup ups.
Proof.
  split; [exact ex_a_b_uniqids|].
  apply (iter_upoints_complete [ex_a; ex_b]). exact ex_a_b_uniqids.
Defined.

(** ** Points with arbitrary values *)

Lemma point2upoint_fold_raise (p : point) (e : exn) :
  fold_left (fun acc vval => upoint_add acc (snd vval) (uniqid (fst vval)))
            p (Raise e) = Raise e.
Proof. induction p as [|[v val] p IH]; simpl; auto. Qed.

Lemma point2upoint_fold (p : point) (up0 : upoint) :
  fold_left (fun acc vval => upoint_add acc (snd vval) (uniqid (fst vval)))
            p (Ok up0)
  = if forallb (fun v_val => reads_zeros (snd v_val) || reads_ones (snd v_val)) p
    then Ok (uniqids_where reads_zeros p ∪ fst up0,
             uniqids_where reads_ones p ∪ snd up0)
    else Raise index_error.
Proof.
  revert up0. induction p as [|[v val] p IH]; intros [z o]; simpl.
  - unfold uniqids_where. simpl. f_equal. f_equal; set_solver.
  - unfold upoint_add, reads_zeros, reads_ones, uniqids_where in *. simpl.
    destruct (Z.eqb_spec val 0) as [->|H0]; simpl.
    { rewrite IH. simpl.
      destruct (forallb _ p); [|reflexivity]. f_equal. f_equal; set_solver. }
    destruct (Z.eqb_spec val (-2)) as [->|H2]; simpl.
    { rewrite IH. simpl.
      destruct (forallb _ p); [|reflexivity]. f_equal. f_equal; set_solver. }
    destruct (Z.eqb_spec val 1) as [->|H1]; simpl.
    { rewrite IH. simpl.
      destruct (forallb _ p); [|reflexivity]. f_equal. f_equal; set_solver. }
    destruct (Z.eqb_spec val (-1)) as [->|H3]; simpl.
    { rewrite IH. simpl.
      destruct (forallb _ p); [|reflexivity]. f_equal. f_equal; set_solver. }
    apply point2upoint_fold_raise.
Qed.

Lemma point2upoint_closed (p : point) :
  point2upoint p
  = if forallb (fun v_val => reads_zeros (snd v_val) || reads_ones (snd v_val)) p
    then Ok (uniqids_where reads_zeros p, uniqids_where reads_ones p)
    else Raise index_error.
Proof.
  unfold point2upoint. rewrite point2upoint_fold. simpl.
  destruct (forallb _ p); [|reflexivity]. f_equal. f_equal; set_solver.
Qed.

(** X5. [point2upoint] returns when every value of the point is one of
    0, 1, -1, -2, and raises [IndexError] otherwise. When it returns, the
    first set holds the ids of the variables with value 0 or -2 and the
    second those with value 1 or -1: the negative values are read as
    subscripts from the end of the two-element list. *)
Theorem point2upoint_values (p : point) :
  point2upoint p
  = if forallb (fun v_val => reads_zeros (snd v_val) || reads_ones (snd v_val)) p
    then Ok (uniqids_where reads_zeros p, uniqids_where reads_ones p)
    else Raise index_error.
Proof. apply point2upoint_closed. Qed.

(** ** Minterms and maxterms *)

Section MoreTermClaims.
Context {F : Type} `{Function F}.

Lemma num2term_length (num : Z) (fs : list F) (conj : bool) :
  length (num2term num fs conj) = length fs.
Proof.
  unfold num2term, enumerate.
  destruct conj; rewrite length_map; apply enumerate_from_length.
Qed.

(** The term depends on [num] through the bits at the positions of [fs]
    only. *)
Lemma num2term_ext (a b : Z) (fs : list F) (conj : bool) :
  (forall i, 0 <= i < Z.of_nat (length fs) -> bit_on a i = bit_on b i) ->
  num2term a fs conj = num2term b fs conj.
Proof.
  intros Hbits. unfold num2term, enumerate.
  destruct conj; apply map_ext_in; intros [i f] Hin;
    apply enumerate_from_fst in Hin; simpl; rewrite Hbits by lia; reflexivity.
Qed.

Lemma bit_on_lnot (num i : Z) :
  0 <= i -> negb (bit_on (Z.lnot num) i =? 0) = (bit_on num i =? 0).
Proof.
  intros Hi. rewrite !bit_on_testbit, Z.lnot_spec by lia.
  destruct (Z.testbit num i); reflexivity.
Qed.

Lemma num2term_lnot (num : Z) (fs : list F) :
  num2term num fs true = num2term (Z.lnot num) fs false
  /\ num2term num fs false = num2term (Z.lnot num) fs true
  /\ length (num2term num fs true) = length fs.
Proof.
  split; [|split; [|apply num2term_length]].
  - unfold num2term, enumerate. apply map_ext_in. intros [i f] Hin.
    apply enumerate_from_fst in Hin. simpl.
    rewrite (bit_on_lnot num i) by lia.
    destruct (bit_on num i =? 0); reflexivity.
  - unfold num2term, enumerate. apply map_ext_in. intros [i f] Hin.
    apply enumerate_from_fst in Hin. simpl.
    rewrite (bit_on_lnot num i) by lia.
    destruct (bit_on num i =? 0); reflexivity.
Qed.

(** X6. Minterms and maxterms are dual under the same index: the maxterm
    of [num] is the minterm of the bitwise complement [~num], and both
    have one literal for each function of [fs]. *)
Theorem num2term_dual (num : Z) (fs : list F) :
  num2term num fs true = num2term (Z.lnot num) fs false
  /\ num2term num fs false = num2term (Z.lnot num) fs true
  /\ length (num2term num fs true) = length fs.
Proof. apply num2term_lnot. Qed.

Lemma iter_terms_nth_error (fs : list F) (conj : bool) (k : nat) :
  (k < 2 ^ length fs)%nat ->
  nth_error (iter_terms fs conj) k = Some (num2term (Z.of_nat k) fs conj).
Proof.
  intros Hk. unfold iter_terms. rewrite nth_error_map.
  rewrite range_nth_error by (rewrite shiftl_1_to_nat; exact Hk).
  reflexivity.
Qed.

Lemma iter_terms_length (fs : list F) (conj : bool) :
  length (iter_terms fs conj) = (2 ^ length fs)%nat.
Proof.
  unfold iter_terms. rewrite length_map, range_length. apply shiftl_1_to_nat.
Qed.

(** X7. [iter_terms] yields [2^N] terms, the term of [num = k] at
    position [k]; the maxterms are the minterms in reverse order. *)
Theorem iter_terms_reverse (fs : list F) :
  length (iter_terms fs false) = (2 ^ length fs)%nat
  /\ (forall (k : nat) (conj : bool), (k < 2 ^ length fs)%nat ->
        nth_error (iter_terms fs conj) k = Some (num2term (Z.of_nat k) fs conj))
  /\ iter_terms fs true = rev (iter_terms fs false).
Proof.
  split; [apply iter_terms_length|]. split; [intros; apply iter_terms_nth_error; assumption|].
  apply nth_error_ext. intros k.
  destruct (Nat.lt_ge_cases k (2 ^ length fs)) as [Hk | Hk].
  - rewrite nth_error_rev, iter_terms_length.
    destruct (Nat.ltb_spec k (2 ^ length fs)) as [_|Hge]; [|lia].
    rewrite !iter_terms_nth_error by lia. f_equal.
    destruct (num2term_lnot (Z.of_nat k) fs) as [-> _].
    apply num2term_ext. intros i Hi.
    assert (Hpow : Z.of_nat (2 ^ length fs) = 2 ^ Z.of_nat (length fs)).
    { rewrite Nat2Z.inj_pow. reflexivity. }
    assert (Hpos : 0 < 2 ^ Z.of_nat (length fs)) by (apply Z.pow_pos_nonneg; lia).
    replace (Z.of_nat (2 ^ length fs - S k))
      with (Z.lnot (Z.of_nat k) + 1 * 2 ^ Z.of_nat (length fs))
      by (unfold Z.lnot; lia).
    rewrite <- (bit_on_mod (Z.lnot (Z.of_nat k) + _) i (Z.of_nat (length fs)))
      by lia.
    rewrite Z.mod_add by lia. rewrite bit_on_mod by lia. reflexivity.
  - rewrite (proj2 (nth_error_None _ _)) by (rewrite iter_terms_length; lia).
    symmetry. apply nth_error_None. rewrite length_rev, iter_terms_length. lia.
Qed.

(** X8. For pairwise distinct variables, reading the term off the point
    of [num] gives the term of [num] over the variables as functions. *)
Theorem point2term_num2point (lit : variable -> F) (num : Z)
    (vs : list variable) (conj : bool) :
  List.NoDup (map oid vs) ->
  point2term lit (num2point num vs) conj = num2term num (map lit vs) conj.
Proof.
  intros Hnd. rewrite num2point_items by exact Hnd.
  unfold point2term, num2term, point_items, enumerate.
  assert (Henum : forall s (l : list variable),
            enumerate_from s (map lit l)
            = map (fun iv => (fst iv, lit (snd iv))) (enumerate_from s l)).
  { intros s l. revert s. induction l as [|x l IH]; intros s; simpl;
      [reflexivity | rewrite IH; reflexivity]. }
  rewrite Henum. destruct conj; rewrite !map_map; reflexivity.
Qed.
End MoreTermClaims.

Lemma point2term_num2point_witness :
  List.NoDup (map oid [ex_a; ex_b])
  /\ point2term EVar (num2point 2 [ex_a; ex_b]) false
     = num2term 2 (map EVar [ex_a; ex_b]) false.
Proof.
  split; [exact ex_a_b_distinct|].
  apply (point2term_num2point EVar 2 [ex_a; ex_b] false).
  exact ex_a_b_distinct.
Defined.

(** ** More on the derived operations *)

Section MoreDerivedClaims.
Context {F : Type} `{Function F}.
Context (inputs : F -> list variable).

Lemma restrict_num2point (f : F) (num : Z) (vs : list variable) :
  List.NoDup (map oid vs) ->
  restrict f (num2point num vs) = Ok (urestrict f (upoint_of_num num vs)).
Proof.
  intros Hnd. unfold restrict. rewrite num2point_items by exact Hnd.
  unfold point2upoint, point_items. rewrite fold_left_map_fusion.
  change (fold_left _ (enumerate vs) (Ok (∅, ∅))) with (num2upoint num vs).
  rewrite num2upoint_eq. reflexivity.
Qed.

Lemma mapM_map_Ok {A B C} (g : B -> result C) (h : A -> B) (k : A -> C)
    (l : list A) :
  (forall x, g (h x) = Ok (k x)) -> mapM g (map h l) = Ok (map k l).
Proof.
  intros Hg. induction l as [|x l IH]; simpl; [reflexivity|].
  rewrite Hg. simpl. rewrite IH. reflexivity.
Qed.

(** X9. When the inputs of [f] are pairwise distinct, the image
    [iter_image] lists is the list of cofactors over the inputs, and the
    relation [iter_relation] lists pairs each point of the domain with its
    element of the image. *)
Theorem iter_image_cofactors (f : F) :
  List.NoDup (map oid (inputs f)) ->
  iter_image inputs f = cofactors f (VsIterable (map IsVariable (inputs f)))
  /\ exists image : list F,
       iter_image inputs f = Ok image
       /\ iter_relation inputs f = Ok (combine (iter_domain inputs f) image)
       /\ length image = (2 ^ length (inputs f))%nat.
Proof.
  intros Hnd.
  assert (Himage : iter_image inputs f
            = Ok (map (fun num => urestrict f (upoint_of_num num (inputs f)))
                      (range (Z.shiftl 1 (Z.of_nat (length (inputs f))))))).
  { unfold iter_image, iter_points. apply mapM_map_Ok. intros num.
    apply restrict_num2point. exact Hnd. }
  split.
  - rewrite Himage. symmetry. apply iter_cofactors_variables.
  - eexists. split; [exact Himage|]. split.
    + unfold iter_relation, iter_domain, iter_points.
      rewrite (mapM_map_Ok _ _
                 (fun num => (num2point num (inputs f),
                              urestrict f (upoint_of_num num (inputs f))))).
      * f_equal. generalize (range (Z.shiftl 1 (Z.of_nat (length (inputs f))))).
        intros l. induction l as [|x l IH]; simpl; [reflexivity|].
        rewrite IH. reflexivity.
      * intros num. rewrite restrict_num2point by exact Hnd. reflexivity.
    + rewrite length_map, range_length. apply shiftl_1_to_nat.
Qed.
End MoreDerivedClaims.

Lemma iter_image_cofactors_witness :
  List.NoDup (map oid (support (EOr (EVar ex_a) (EVar ex_b))))
  /\ iter_image support (EOr (EVar ex_a) (EVar ex_b))
     = cofactors (EOr (EVar ex_a) (EVar ex_b))
         (VsIterable (map IsVariable (support (EOr (EVar ex_a) (EVar ex_b)))))
  /\ exists image : list Expr,
       iter_image support (EOr (EVar ex_a) (EVar ex_b)) = Ok image
       /\ iter_relation support (EOr (EVar ex_a) (EVar ex_b))
          = Ok (combine (iter_domain support (EOr (EVar ex_a) (EVar ex_b)))
                        image)
       /\ length image
          = (2 ^ length (support (EOr (EVar ex_a) (EVar ex_b))))%nat.
Proof.
  split; [exact ex_a_b_distinct|].
  apply (iter_image_cofactors support (EOr (EVar ex_a) (EVar ex_b))).
  exact ex_a_b_distinct.
Defined.

Section QuantifierClaims.
Context {F : Type} `{Function F}.

Lemma iter_upoints_one (x : variable) :
  iter_upoints [x] = Ok [({[uniqid x]}, ∅); (∅, {[uniqid x]})].
Proof.
  unfold iter_upoints, range, num2upoint, enumerate. simpl.
  unfold upoint_add. simpl. rewrite !union_empty_r_L. reflexivity.
Qed.

(** X10. Over one variable [x] the cofactors are the restriction by
    [x = 0] followed by the restriction by [x = 1]; smoothing, consensus
    and derivative are their [|], [&] and [^], in that order. A variable
    passed as such and the one-element list of it give the same. *)
Theorem quantify_one_variable (f : F) (x : variable) :
  cofactors f (VsVariable x)
    = Ok [urestrict f ({[uniqid x]}, ∅); urestrict f (∅, {[uniqid x]})]
  /\ cofactors f (VsIterable [IsVariable x]) = cofactors f (VsVariable x)
  /\ smoothing f (VsVariable x)
     = Ok (__or__ (urestrict f ({[uniqid x]}, ∅))
                  (urestrict f (∅, {[uniqid x]})))
  /\ consensus f (VsVariable x)
     = Ok (__and__ (urestrict f ({[uniqid x]}, ∅))
                   (urestrict f (∅, {[uniqid x]})))
  /\ derivative f (VsVariable x)
     = Ok (__xor__ (urestrict f ({[uniqid x]}, ∅))
                   (urestrict f (∅, {[uniqid x]})))
  /\ smoothing f (VsIterable [IsVariable x]) = smoothing f (VsVariable x)
  /\ consensus f (VsIterable [IsVariable x]) = consensus f (VsVariable x)
  /\ derivative f (VsIterable [IsVariable x]) = derivative f (VsVariable x).
Proof.
  assert (Hcf : iter_cofactors f (VsVariable x)
            = Ok [urestrict f ({[uniqid x]}, ∅); urestrict f (∅, {[uniqid x]})]).
  { unfold iter_cofactors, _expect_vars, mbind, result_bind.
    rewrite iter_upoints_one. reflexivity. }
  assert (Hcf' : iter_cofactors f (VsIterable [IsVariable x])
            = iter_cofactors f (VsVariable x)) by reflexivity.
  unfold cofactors, smoothing, consensus, derivative.
  rewrite Hcf', Hcf. split_and!; reflexivity.
Qed.

(** X11. Called without variables, smoothing, consensus and derivative
    quantify nothing: each returns the restriction of [f] by the empty
    untyped point, with no operator applied. *)
Theorem quantify_no_variable (f : F) :
  smoothing f VsNone = Ok (urestrict f (∅, ∅))
  /\ consensus f VsNone = Ok (urestrict f (∅, ∅))
  /\ derivative f VsNone = Ok (urestrict f (∅, ∅))
  /\ smoothing f (VsIterable []) = smoothing f VsNone
  /\ consensus f (VsIterable []) = consensus f VsNone
  /\ derivative f (VsIterable []) = derivative f VsNone.
Proof. split_and!; reflexivity. Qed.

Lemma expect_vars_error (vs : vs_arg) (e : exn) :
  _expect_vars vs = Raise e -> e <> empty_reduction.
Proof.
  destruct vs as [|v|items|t]; simpl; try discriminate.
  - induction items as [|[v|t] items IH]; simpl; [discriminate| |].
    + destruct (mapM _ items); simpl; [discriminate|].
      intros [= <-]. apply IH. reflexivity.
    + intros [= <-]. discriminate.
  - intros [= <-]. discriminate.
Qed.

(** X12. The fold never runs over an empty sequence. When the variables
    pass the type check there are [2^N] cofactors, at least one, and the
    three operations return the fold from the first cofactor on; otherwise
    they raise the error of the type check, which is not the one of
    [reduce]. *)
Theorem quantify_never_empty (f : F) (vs : vs_arg) :
  match _expect_vars vs with
  | Ok vs' =>
      exists cf cfs,
        iter_cofactors f vs = Ok (cf :: cfs)
        /\ length (cf :: cfs) = (2 ^ length vs')%nat
        /\ smoothing f vs = Ok (fold_left __or__ cfs cf)
        /\ consensus f vs = Ok (fold_left __and__ cfs cf)
        /\ derivative f vs = Ok (fold_left __xor__ cfs cf)
  | Raise e =>
      iter_cofactors f vs = Raise e /\ smoothing f vs = Raise e
      /\ consensus f vs = Raise e /\ derivative f vs = Raise e
      /\ e <> empty_reduction
  end.
Proof.
  destruct (_expect_vars vs) as [vs'|e] eqn:Hvs.
  - assert (Hcf : iter_cofactors f vs
              = Ok (map (fun num => urestrict f (upoint_of_num num vs'))
                        (range (Z.shiftl 1 (Z.of_nat (length vs')))))).
    { unfold iter_cofactors. rewrite Hvs. simpl. rewrite iter_upoints_eq.
      simpl. rewrite map_map. reflexivity. }
    assert (Hlen : length (map (fun num => urestrict f (upoint_of_num num vs'))
                             (range (Z.shiftl 1 (Z.of_nat (length vs')))))
                   = (2 ^ length vs')%nat).
    { rewrite length_map, range_length. apply shiftl_1_to_nat. }
    destruct (map _ _) as [|cf cfs] eqn:Hmap.
    + simpl in Hlen. pose proof (Nat.pow_nonzero 2 (length vs') ltac:(lia)). lia.
    + exists cf, cfs. unfold smoothing, consensus, derivative. rewrite Hcf.
      split_and!; auto.
  - unfold smoothing, consensus, derivative, iter_cofactors. rewrite Hvs.
    split_and!; try reflexivity. apply (expect_vars_error vs). exact Hvs.
Qed.

(** X13. A sequence with an item that is not a [Variable] is rejected
    with a [TypeError] that names the type of the first such item, by the
    cofactors and by the three operations alike. *)
Theorem quantify_type_error (f : F) (vs : list variable) (t : string)
    (rest : list pyitem) :
  let arg := VsIterable (map IsVariable vs ++ NotVariable t :: rest) in
  let e := TypeError ("expected Variable, got " +:+ t) in
  cofactors f arg = Raise e /\ smoothing f arg = Raise e
  /\ consensus f arg = Raise e /\ derivative f arg = Raise e.
Proof.
  intros arg e.
  assert (Hvs : _expect_vars arg = Raise e).
  { unfold arg, _expect_vars. induction vs as [|v vs IH]; simpl.
    - reflexivity.
    - rewrite IH. reflexivity. }
  unfold cofactors, smoothing, consensus, derivative, iter_cofactors.
  rewrite Hvs. split_and!; reflexivity.
Qed.

(** X14. Over its own support a function has as many cofactors as its
    cardinality, which is 2 to the power of its degree. *)
Theorem cofactors_support_cardinality (f : F) :
  exists cfs : list F,
    cofactors f (VsIterable (map IsVariable (support f))) = Ok cfs
    /\ Z.of_nat (length cfs) = cardinality f
    /\ cardinality f = 2 ^ degree f
    /\ 1 <= cardinality f.
Proof.
  unfold cofactors. rewrite iter_cofactors_variables.
  eexists. split; [reflexivity|]. unfold cardinality, degree.
  rewrite length_map, range_length, shiftl_1_to_nat, Z.shiftl_1_l.
  rewrite Nat2Z.inj_pow. split_and!; try reflexivity.
  change (Z.of_nat 2) with 2.
  assert (0 < 2 ^ Z.of_nat (length (support f))) by (apply Z.pow_pos_nonneg; lia).
  lia.
Qed.

(** X15. [f * n] for an int [n >= 0] is the array of [n] items, each of
    them [f]; a negative int raises [ValueError], anything that is not an
    int (a bool too) raises [TypeError]; [__rmul__] does the same. *)
Theorem mul_repeats (f : F) (other : pyobj) :
  match other with
  | PyInt n =>
      if n <? 0
      then __mul__ f other
           = Raise (ValueError "expected multiplier to be non-negative")
      else exists a, __mul__ f other = Ok a
                     /\ Z.of_nat (length (flat a)) = n
                     /\ Forall (fun g => g = f) (flat a)
  | _ => __mul__ f other = Raise (TypeError "expected multiplier to be an int")
  end
  /\ __rmul__ f other = __mul__ f other.
Proof.
  split; [|reflexivity].
  destruct other as [|b|n|s|items]; try reflexivity. unfold __mul__.
  destruct (Z.ltb_spec n 0) as [Hneg|Hpos]; [reflexivity|].
  eexists. split; [reflexivity|]. simpl.
  assert (Hrep : forall k, concat (repeat [f] k) = repeat f k).
  { induction k as [|k IH]; simpl; [reflexivity | rewrite IH; reflexivity]. }
  rewrite Hrep. split.
  - rewrite repeat_length. lia.
  - apply List.Forall_forall. intros g Hg. apply repeat_spec in Hg. exact Hg.
Qed.
End QuantifierClaims.

(** ** More on the registry *)

Lemma check_names_inv (items : list pyobj) :
  check_names items = Ok () <->
  items = map PyStr (str_values items)
  /\ Forall (fun n => match_name n = true) (str_values items).
Proof.
  induction items as [|x items IH]; simpl.
  - split; [intros _; split; [reflexivity | constructor] | reflexivity].
  - unfold str_values in *.
    destruct x as [|b|z|s|l]; simpl;
      try (split; [discriminate | intros [Hbad _]];
           destruct (omap _ items); discriminate Hbad).
    destruct (match_name s) eqn:Hs.
    + rewrite IH. split.
      * intros [Heq Hall]. split; [f_equal; exact Heq | constructor; assumption].
      * intros [[= Heq] Hall]. inversion Hall; subst. split; assumption.
    + split; [discriminate|]. intros [_ Hall]. inversion Hall; congruence.
Qed.

Lemma check_indices_inv (items : list pyobj) :
  check_indices items = Ok () <->
  items = map PyInt (int_values items)
  /\ Forall (fun i => 0 <= i) (int_values items).
Proof.
  induction items as [|x items IH]; simpl.
  - split; [intros _; split; [reflexivity | constructor] | reflexivity].
  - unfold int_values in *.
    destruct x as [|b|z|s|l]; simpl;
      try (split; [discriminate | intros [Hbad _]];
           destruct (omap _ items); discriminate Hbad).
    destruct (Z.ltb_spec z 0) as [Hneg|Hpos].
    + split; [discriminate|]. intros [_ Hall]. inversion Hall; lia.
    + rewrite IH. split.
      * intros [Heq Hall]. split; [f_equal; exact Heq | constructor; assumption].
      * intros [[= Heq] Hall]. inversion Hall; subst. split; assumption.
Qed.

Lemma str_values_PyStr (ns : list string) : str_values (map PyStr ns) = ns.
Proof.
  unfold str_values. induction ns as [|n ns IH]; simpl; [reflexivity|].
  f_equal. exact IH.
Qed.

Lemma int_values_PyInt (ixs : list Z) : int_values (map PyInt ixs) = ixs.
Proof.
  unfold int_values. induction ixs as [|i ixs IH]; simpl; [reflexivity|].
  f_equal. exact IH.
Qed.

Lemma var_args_tuples (ns : list string) (ixs : list Z) :
  valid_key (ns, ixs) ->
  var_args (PyTuple (map PyStr ns)) (PyTuple (map PyInt ixs)) = Ok (ns, ixs).
Proof.
  intros (Hne & Hnames & Hixs). simpl in *. unfold var_args. simpl.
  destruct ns as [|n ns]; [congruence|]. simpl map at 1. cbn [mbind result_bind].
  assert (Hcn : check_names (map PyStr (n :: ns)) = Ok ()).
  { apply check_names_inv. rewrite str_values_PyStr. auto. }
  assert (Hci : check_indices (map PyInt ixs) = Ok ()).
  { apply check_indices_inv. rewrite int_values_PyInt. auto. }
  rewrite Hcn, Hci. cbn [mbind result_bind map].
  change (PyStr n :: map PyStr ns) with (map PyStr (n :: ns)).
  rewrite (str_values_PyStr (n :: ns)), int_values_PyInt. reflexivity.
Qed.

Lemma var_args_valid (name index : pyobj) (k : key) :
  var_args name index = Ok k -> valid_key k.
Proof.
  unfold var_args.
  assert (G : forall rn ri : result (list pyobj),
            (names ← rn;
             _ ← match names with
                 | [] => Raise (ValueError "expected at least one name")
                 | _ => Ok ()
                 end;
             _ ← check_names names;
             indices ← ri;
             _ ← check_indices indices;
             Ok (str_values names, int_values indices)) = Ok k ->
            valid_key k).
  { intros [names0|e] ri; [|discriminate]. cbn [mbind result_bind].
    destruct names0 as [|x names0]; [discriminate|].
    cbn [mbind result_bind].
    destruct (check_names (x :: names0)) as [[]|] eqn:Hcn; [|discriminate].
    cbn [mbind result_bind].
    destruct ri as [indices0|e]; [|discriminate]. cbn [mbind result_bind].
    destruct (check_indices indices0) as [[]|] eqn:Hci; [|discriminate].
    intros [= <-]. apply check_names_inv in Hcn as [Heq Hall].
    apply check_indices_inv in Hci as [_ Hall'].
    assert (Hne : str_values (x :: names0) ≠ []).
    { intros Hnil. rewrite Hnil in Heq. discriminate. }
    split_and!; assumption. }
  intros Hk. eapply G. exact Hk.
Qed.

(** X16. The keys [var] accepts are those with at least one name, every
    name matching the pattern, and no negative index; a key is accepted
    exactly when the call with its names and indices as tuples is. *)
Theorem var_args_valid_key (k : key) :
  ((exists name index, var_args name index = Ok k) <-> valid_key k)
  /\ (valid_key k <->
      var_args (PyTuple (map PyStr (fst k))) (PyTuple (map PyInt (snd k)))
      = Ok k).
Proof.
  destruct k as [ns ixs]. simpl. split; split.
  - intros (name & index & Hargs). eapply var_args_valid. exact Hargs.
  - intros Hvalid. eexists _, _. apply var_args_tuples. exact Hvalid.
  - apply var_args_tuples.
  - apply var_args_valid.
Qed.

Lemma registry_init_inv : registry_inv registry_init.
Proof.
  constructor; simpl.
  - intros u Hu. lia.
  - intros k v Hk. rewrite lookup_empty in Hk. discriminate.
  - intros k1 k2 v1 v2 Hk. rewrite lookup_empty in Hk. discriminate.
  - intros k v Hk. rewrite lookup_empty in Hk. discriminate.
Qed.

Lemma Variable__init__shape (ns : list string) (ixs : list Z) (st : registry) :
  oid (fst (Variable__init__ ns ixs st)) = next_oid st
  /\ next_oid (snd (Variable__init__ ns ixs st)) = Pos.succ (next_oid st)
  /\ VARIABLES (snd (Variable__init__ ns ixs st)) = VARIABLES st
  /\ _COUNT st <= _COUNT (snd (Variable__init__ ns ixs st)).
Proof.
  unfold Variable__init__.
  destruct (_UNIQIDS st !! (ns, ixs)); simpl; split_and!; try reflexivity; lia.
Qed.

Lemma Variable__init__inv (ns : list string) (ixs : list Z) (st : registry) :
  registry_inv st -> registry_inv (snd (Variable__init__ ns ixs st)).
Proof.
  intros [Hall Hold Hinj Hvalid].
  destruct (Variable__init__shape ns ixs st) as (_ & Hnext & Hvars & _).
  constructor; rewrite ?Hvars, ?Hnext; try assumption.
  - unfold Variable__init__.
    destruct (_UNIQIDS st !! (ns, ixs)) as [u0|] eqn:Hlook; simpl; [exact Hall|].
    intros u Hu. destruct (decide (u = _COUNT st)) as [->|Hne].
    + exists (ns, ixs). apply lookup_insert_eq.
    + destruct (Hall u ltac:(lia)) as [k Hk]. exists k.
      rewrite lookup_insert_ne; [exact Hk|]. intros <-. congruence.
  - intros k v Hk. apply Hold in Hk. lia.
Qed.

Lemma var_lookup_miss (k : key) (st : registry) :
  VARIABLES st !! k = None ->
  var_lookup k st
  = (fst (Variable__init__ (fst k) (snd k) st),
     {| VARIABLES := <[k := fst (Variable__init__ (fst k) (snd k) st)]>
                       (VARIABLES st);
        _UNIQIDS := _UNIQIDS (snd (Variable__init__ (fst k) (snd k) st));
        _COUNT := _COUNT (snd (Variable__init__ (fst k) (snd k) st));
        next_oid := Pos.succ (next_oid st) |}).
Proof.
  intros Hmiss. unfold var_lookup. rewrite Hmiss.
  destruct (Variable__init__shape (fst k) (snd k) st) as (_ & Hnext & Hvars & _).
  destruct (Variable__init__ (fst k) (snd k) st) as [v st'] eqn:Hinit.
  simpl in *. rewrite Hnext, Hvars. reflexivity.
Qed.

Lemma var_lookup_inv (k : key) (st : registry) :
  valid_key k -> registry_inv st -> registry_inv (snd (var_lookup k st)).
Proof.
  intros Hk Hinv. destruct (VARIABLES st !! k) as [v|] eqn:Hlook.
  - unfold var_lookup. rewrite Hlook. exact Hinv.
  - rewrite (var_lookup_miss k st Hlook). simpl.
    pose proof (Variable__init__inv (fst k) (snd k) st Hinv) as [Hall _ _ _].
    destruct (Variable__init__shape (fst k) (snd k) st) as (Hoid & _ & _ & _).
    destruct Hinv as [_ Hold Hinj Hvalid].
    constructor; simpl.
    + exact Hall.
    + intros k' v' Hk'. destruct (decide (k = k')) as [<-|Hne].
      * rewrite lookup_insert_eq in Hk'. injection Hk' as <-. rewrite Hoid. lia.
      * rewrite lookup_insert_ne in Hk' by exact Hne. apply Hold in Hk'. lia.
    + intros k1 k2 v1 v2 Hk1 Hk2 Heq.
      destruct (decide (k = k1)) as [<-|Hne1];
        destruct (decide (k = k2)) as [<-|Hne2]; [reflexivity| | |].
      * rewrite lookup_insert_eq in Hk1. injection Hk1 as <-.
        rewrite lookup_insert_ne in Hk2 by exact Hne2.
        apply Hold in Hk2. rewrite <- Heq, Hoid in Hk2. lia.
      * rewrite lookup_insert_eq in Hk2. injection Hk2 as <-.
        rewrite lookup_insert_ne in Hk1 by exact Hne1.
        apply Hold in Hk1. rewrite Heq, Hoid in Hk1. lia.
      * rewrite lookup_insert_ne in Hk1 by exact Hne1.
        rewrite lookup_insert_ne in Hk2 by exact Hne2.
        exact (Hinj _ _ _ _ Hk1 Hk2 Heq).
    + intros k' v' Hk'. destruct (decide (k = k')) as [<-|Hne].
      * exact Hk.
      * rewrite lookup_insert_ne in Hk' by exact Hne. exact (Hvalid _ _ Hk').
Qed.

Lemma registry_step_inv (st st' : registry) :
  registry_inv st -> registry_step st st' -> registry_inv st'.
Proof.
  intros Hinv [name index v st1 Hvar | ns ixs].
  - apply var_inv in Hvar as (k & Hargs & Hlook).
    pose proof (var_lookup_inv k st (var_args_valid _ _ _ Hargs) Hinv) as H'.
    rewrite Hlook in H'. exact H'.
  - apply Variable__init__inv. exact Hinv.
Qed.

Lemma registry_steps_inv (st st' : registry) :
  registry_inv st -> rtc registry_step st st' -> registry_inv st'.
Proof.
  intros Hinv Hsteps.
  induction Hsteps as [st | st st1 st2 Hstep Hsteps IH]; [exact Hinv|].
  apply IH. eapply registry_step_inv; eassumption.
Qed.

Lemma run_calls_inv (calls : list call) :
  registry_wf (run_calls calls registry_init)
  /\ registry_inv (run_calls calls registry_init).
Proof.
  split; [apply reachable_wf; apply run_calls_steps|].
  apply (registry_steps_inv registry_init); [apply registry_init_inv|].
  apply run_calls_steps.
Qed.

Lemma registry_step_count (st st' : registry) :
  registry_step st st' -> _COUNT st <= _COUNT st'.
Proof.
  intros [name index v st1 Hvar | ns ixs].
  - apply var_inv in Hvar as (k & _ & Hlook).
    destruct (VARIABLES st !! k) as [v0|] eqn:Hk.
    + unfold var_lookup in Hlook. rewrite Hk in Hlook.
      injection Hlook as _ <-. lia.
    + rewrite (var_lookup_miss k st Hk) in Hlook. injection Hlook as _ <-.
      simpl. apply Variable__init__shape.
  - apply Variable__init__shape.
Qed.

Lemma registry_steps_count (st st' : registry) :
  rtc registry_step st st' -> _COUNT st <= _COUNT st'.
Proof.
  intros Hsteps. induction Hsteps as [st | st st1 st2 Hstep Hsteps IH]; [lia|].
  apply registry_step_count in Hstep. lia.
Qed.

(** X17. Whatever calls were made, every variable stored in [VARIABLES]
    sits under its own [(names, indices)], which passed the checks of
    [var], and has the id registered for that key in [_UNIQIDS]. *)
Theorem VARIABLES_entries (calls : list call) :
  let st := run_calls calls registry_init in
  map_Forall (fun k v => valid_key k /\ (names v, indices v) = k
                         /\ _UNIQIDS st !! k = Some (uniqid v))
             (VARIABLES st).
Proof.
  intros st k v Hk. destruct (run_calls_inv calls) as [Hwf Hinv].
  fold st in Hwf, Hinv. split; [exact (inv_valid st Hinv k v Hk)|].
  exact (wf_vars st Hwf k v Hk).
Qed.

(** X18. Whatever calls were made, the ids given out so far are exactly
    the integers from 1 up to [_COUNT - 1]: none is skipped and none lies
    outside. *)
Theorem uniqids_contiguous (calls : list call) (u : Z) :
  let st := run_calls calls registry_init in
  (exists k, _UNIQIDS st !! k = Some u) <-> 1 <= u < _COUNT st.
Proof.
  intros st. destruct (run_calls_inv calls) as [Hwf Hinv].
  fold st in Hwf, Hinv. split.
  - intros [k Hk]. exact (wf_ids_range st Hwf k u Hk).
  - apply (inv_ids_all st Hinv).
Qed.

(** X19. Two variables stored in [VARIABLES] are the same object exactly
    when their keys are equal, and exactly then they have the same id and
    are equal altogether. *)
Theorem stored_variables_identity (calls : list call) (k1 k2 : key)
    (v1 v2 : variable) :
  VARIABLES (run_calls calls registry_init) !! k1 = Some v1 ->
  VARIABLES (run_calls calls registry_init) !! k2 = Some v2 ->
  (k1 = k2 <-> oid v1 = oid v2)
  /\ (k1 = k2 <-> uniqid v1 = uniqid v2)
  /\ (k1 = k2 <-> v1 = v2).
Proof.
  intros Hk1 Hk2. destruct (run_calls_inv calls) as [Hwf Hinv].
  set (st := run_calls calls registry_init) in *.
  destruct (wf_vars st Hwf k1 v1 Hk1) as [Hkey1 Hid1].
  destruct (wf_vars st Hwf k2 v2 Hk2) as [Hkey2 Hid2].
  assert (Hsame : k1 = k2 -> v1 = v2) by (intros <-; congruence).
  split_and!; split; try (intros Heq; apply Hsame in Heq; congruence).
  - exact (inv_oid_inj st Hinv k1 k2 v1 v2 Hk1 Hk2).
  - intros Heq. rewrite Heq in Hid1. exact (wf_ids_inj st Hwf _ _ _ Hid1 Hid2).
  - intros <-. congruence.
Qed.

Lemma stored_variables_identity_witness :
  VARIABLES (run_calls [CallVar (PyStr "a") PyNone; CallVar (PyStr "b") PyNone]
               registry_init) !! (["a"], []) = Some ex_a
  /\ VARIABLES (run_calls [CallVar (PyStr "a") PyNone; CallVar (PyStr "b") PyNone]
                  registry_init) !! (["b"], []) = Some ex_b
  /\ (((["a"], []) : key) = (["b"], []) <-> oid ex_a = oid ex_b)
  /\ (((["a"], []) : key) = (["b"], []) <-> uniqid ex_a = uniqid ex_b)
  /\ (((["a"], []) : key) = (["b"], []) <-> ex_a = ex_b).
Proof.
  split; [vm_compute; reflexivity|]. split; [vm_compute; reflexivity|].
  apply (stored_variables_identity
           [CallVar (PyStr "a") PyNone; CallVar (PyStr "b") PyNone]
           (["a"], []) (["b"], []) ex_a ex_b); vm_compute; reflexivity.
Defined.

(** X20. The constructor called twice with the same names and indices
    gives two objects with one id: it never returns an object made
    before, and the second call leaves the counter alone. *)
Theorem Variable_twice (ns : list string) (ixs : list Z) (st : registry) :
  let r1 := Variable__init__ ns ixs st in
  let r2 := Variable__init__ ns ixs (snd r1) in
  uniqid (fst r2) = uniqid (fst r1)
  /\ oid (fst r2) <> oid (fst r1)
  /\ _COUNT (snd r2) = _COUNT (snd r1)
  /\ _UNIQIDS (snd r2) = _UNIQIDS (snd r1).
Proof.
  unfold Variable__init__.
  destruct (_UNIQIDS st !! (ns, ixs)) as [u|] eqn:Hlook; simpl.
  - rewrite Hlook. simpl. split_and!; try reflexivity. lia.
  - rewrite lookup_insert_eq. simpl. split_and!; try reflexivity. lia.
Qed.

(** X21. Nothing is ever taken back: after any further calls every id
    in [_UNIQIDS] and every variable in [VARIABLES] is still there,
    unchanged, and [_COUNT] has not gone down. *)
Theorem registry_grows (before after : list call) :
  let st := run_calls before registry_init in
  let st' := run_calls after st in
  _UNIQIDS st ⊆ _UNIQIDS st'
  /\ VARIABLES st ⊆ VARIABLES st'
  /\ _COUNT st <= _COUNT st'.
Proof.
  intros st st'. destruct (run_calls_inv before) as [Hwf _]. fold st in Hwf.
  pose proof (run_calls_steps after st) as Hsteps. fold st' in Hsteps.
  split_and!.
  - apply map_subseteq_spec. intros k u Hk.
    apply (registry_steps_wf st st' Hwf Hsteps). exact Hk.
  - apply map_subseteq_spec. intros k v Hk.
    apply (registry_steps_keep_var st st' k v Hsteps Hk).
  - apply registry_steps_count. exact Hsteps.
Qed.

(** ** The order on variables *)

Section SeqOrder.
Context {A : Type} (eqb ltb : A -> A -> bool).
Context (eqb_eq : forall a b, eqb a b = true <-> a = b).
Context (ltb_irrefl : forall a, ltb a a = false).
Context (ltb_trans : forall a b c, ltb a b = true -> ltb b c = true -> ltb a c = true).
Context (ltb_total : forall a b, a <> b -> ltb a b = true \/ ltb b a = true).

Lemma eqb_refl_true (a : A) : eqb a a = true.
Proof. apply eqb_eq. reflexivity. Qed.

Lemma eqb_false_ne (a b : A) : eqb a b = false <-> a <> b.
Proof.
  split.
  - intros Hf Heq. apply eqb_eq in Heq. congruence.
  - intros Hne. destruct (eqb a b) eqn:E; [|reflexivity].
    apply eqb_eq in E. contradiction.
Qed.

Lemma seq_lt_irrefl (x : list A) : seq_lt eqb ltb x x = false.
Proof.
  induction x as [|a x IH]; simpl; [reflexivity|].
  rewrite eqb_refl_true. exact IH.
Qed.

Lemma seq_lt_trans (x y z : list A) :
  seq_lt eqb ltb x y = true -> seq_lt eqb ltb y z = true ->
  seq_lt eqb ltb x z = true.
Proof.
  revert y z. induction x as [|a x IH]; intros [|b y] [|c z]; simpl;
    try discriminate; try reflexivity.
  destruct (eqb a b) eqn:Eab; destruct (eqb b c) eqn:Ebc.
  - apply eqb_eq in Eab, Ebc. subst. rewrite eqb_refl_true. apply IH.
  - apply eqb_eq in Eab. subst. rewrite Ebc. auto.
  - apply eqb_eq in Ebc. subst. rewrite Eab. auto.
  - intros Hab Hbc. destruct (eqb a c) eqn:Eac.
    + apply eqb_eq in Eac. subst.
      pose proof (ltb_trans _ _ _ Hab Hbc) as Hcc.
      rewrite ltb_irrefl in Hcc. discriminate.
    + exact (ltb_trans _ _ _ Hab Hbc).
Qed.

Lemma seq_lt_total (x y : list A) :
  x <> y -> seq_lt eqb ltb x y = true \/ seq_lt eqb ltb y x = true.
Proof.
  revert y. induction x as [|a x IH]; intros [|b y] Hne; simpl; auto;
    try congruence.
  destruct (eqb a b) eqn:Eab.
  - apply eqb_eq in Eab. subst. rewrite eqb_refl_true.
    apply IH. congruence.
  - apply eqb_false_ne in Eab.
    assert (Eba : eqb b a = false) by (apply eqb_false_ne; congruence).
    rewrite Eba. apply ltb_total. exact Eab.
Qed.

Lemma seq_lt_asym (x y : list A) :
  seq_lt eqb ltb x y = true -> seq_lt eqb ltb y x = false.
Proof.
  intros Hxy. destruct (seq_lt eqb ltb y x) eqn:Hyx; [|reflexivity].
  pose proof (seq_lt_trans _ _ _ Hxy Hyx) as Hxx.
  rewrite seq_lt_irrefl in Hxx. discriminate.
Qed.
End SeqOrder.

Lemma code_points_inj (s t : string) : code_points s = code_points t -> s = t.
Proof.
  unfold code_points. intros Heq.
  rewrite <- (String.string_of_list_ascii_of_string s).
  rewrite <- (String.string_of_list_ascii_of_string t). f_equal.
  revert Heq. generalize (String.list_ascii_of_string s).
  generalize (String.list_ascii_of_string t).
  intros l2 l1. revert l2. induction l1 as [|c l1 IH]; intros [|d l2]; simpl;
    try discriminate; [reflexivity|].
  intros [= Hc Hl]. f_equal; [|apply IH; exact Hl].
  rewrite <- (Ascii.ascii_N_embedding c), <- (Ascii.ascii_N_embedding d).
  rewrite Hc. reflexivity.
Qed.

Lemma N_ltb_trans (a b c : N) :
  N.ltb a b = true -> N.ltb b c = true -> N.ltb a c = true.
Proof. rewrite !N.ltb_lt. lia. Qed.

Lemma N_ltb_total (a b : N) : a <> b -> N.ltb a b = true \/ N.ltb b a = true.
Proof. rewrite !N.ltb_lt. lia. Qed.

Lemma Z_ltb_trans (a b c : Z) :
  Z.ltb a b = true -> Z.ltb b c = true -> Z.ltb a c = true.
Proof. rewrite !Z.ltb_lt. lia. Qed.

Lemma Z_ltb_total (a b : Z) : a <> b -> Z.ltb a b = true \/ Z.ltb b a = true.
Proof. rewrite !Z.ltb_lt. lia. Qed.

Lemma str_eqb_eq (s t : string) : str_eqb s t = true <-> s = t.
Proof. unfold str_eqb. apply bool_decide_eq_true. Qed.

Lemma str_lt_irrefl (s : string) : str_lt s s = false.
Proof. apply (seq_lt_irrefl N.eqb N.ltb N.eqb_eq). Qed.

Lemma str_lt_trans (s t u : string) :
  str_lt s t = true -> str_lt t u = true -> str_lt s u = true.
Proof.
  apply (seq_lt_trans N.eqb N.ltb N.eqb_eq N.ltb_irrefl N_ltb_trans).
Qed.

Lemma str_lt_total (s t : string) :
  s <> t -> str_lt s t = true \/ str_lt t s = true.
Proof.
  intros Hne. apply (seq_lt_total N.eqb N.ltb N.eqb_eq N_ltb_total).
  intros Heq. apply Hne, code_points_inj. exact Heq.
Qed.

Lemma names_lt_trans (x y z : list string) :
  seq_lt str_eqb str_lt x y = true -> seq_lt str_eqb str_lt y z = true ->
  seq_lt str_eqb str_lt x z = true.
Proof. apply (seq_lt_trans _ _ str_eqb_eq str_lt_irrefl str_lt_trans). Qed.

Lemma names_lt_irrefl (x : list string) : seq_lt str_eqb str_lt x x = false.
Proof. apply (seq_lt_irrefl _ _ str_eqb_eq). Qed.

Lemma indices_lt_trans (x y z : list Z) :
  seq_lt Z.eqb Z.ltb x y = true -> seq_lt Z.eqb Z.ltb y z = true ->
  seq_lt Z.eqb Z.ltb x z = true.
Proof. apply (seq_lt_trans _ _ Z.eqb_eq Z.ltb_irrefl Z_ltb_trans). Qed.

(** X22. [<] on variables is transitive. *)
Theorem Variable_lt_trans (x y z : variable) :
  Variable__lt__ x y = true -> Variable__lt__ y z = true ->
  Variable__lt__ x z = true.
Proof.
  unfold Variable__lt__.
  destruct (bool_decide_reflect (names x = names y)) as [Exy|Nxy];
    destruct (bool_decide_reflect (names y = names z)) as [Eyz|Nyz].
  - rewrite bool_decide_eq_true_2 by congruence. apply indices_lt_trans.
  - rewrite Exy. rewrite bool_decide_eq_false_2 by exact Nyz. auto.
  - rewrite <- Eyz. rewrite bool_decide_eq_false_2 by exact Nxy. auto.
  - intros Hxy Hyz. pose proof (names_lt_trans _ _ _ Hxy Hyz) as Hxz.
    destruct (bool_decide_reflect (names x = names z)) as [Exz|Nxz];
      [|exact Hxz].
    rewrite Exz, names_lt_irrefl in Hxz. discriminate.
Qed.

Lemma Variable_lt_trans_witness :
  Variable__lt__ ex_a ex_b = true
  /\ Variable__lt__ ex_b (mkVariable 3 ["b"] [0] 3) = true
  /\ Variable__lt__ ex_a (mkVariable 3 ["b"] [0] 3) = true.
Proof.
  split; [reflexivity|]. split; [reflexivity|].
  apply (Variable_lt_trans ex_a ex_b (mkVariable 3 ["b"] [0] 3)); reflexivity.
Defined.

(** X23. [<] on variables is a strict total order on the keys: of
    [x < y], [y < x] and "[x] and [y] have the same names and indices",
    exactly one holds. *)
Theorem Variable_lt_trichotomy (x y : variable) :
  (Variable__lt__ x y = true
   \/ (names x, indices x) = (names y, indices y)
   \/ Variable__lt__ y x = true)
  /\ ~ (Variable__lt__ x y = true /\ (names x, indices x) = (names y, indices y))
  /\ ~ (Variable__lt__ x y = true /\ Variable__lt__ y x = true)
  /\ ~ ((names x, indices x) = (names y, indices y) /\ Variable__lt__ y x = true).
Proof.
  unfold Variable__lt__.
  destruct (bool_decide_reflect (names x = names y)) as [Exy|Nxy].
  - rewrite (bool_decide_eq_true_2 (names y = names x)) by congruence.
    pose proof (seq_lt_irrefl Z.eqb Z.ltb Z.eqb_eq (indices x)) as Hirr.
    split_and!.
    + destruct (decide (indices x = indices y)) as [Ei|Ni].
      * right. left. congruence.
      * destruct (seq_lt_total Z.eqb Z.ltb Z.eqb_eq Z_ltb_total _ _ Ni); auto.
    + intros [Hlt [= _ Ei]]. rewrite Ei in Hlt.
      rewrite (seq_lt_irrefl Z.eqb Z.ltb Z.eqb_eq) in Hlt. discriminate.
    + intros [Hxy Hyx].
      rewrite (seq_lt_asym Z.eqb Z.ltb Z.eqb_eq Z.ltb_irrefl Z_ltb_trans _ _ Hxy)
        in Hyx. discriminate.
    + intros [[= _ Ei] Hlt]. rewrite Ei in Hlt.
      rewrite (seq_lt_irrefl Z.eqb Z.ltb Z.eqb_eq) in Hlt. discriminate.
  - rewrite (bool_decide_eq_false_2 (names y = names x)) by congruence.
    split_and!.
    + destruct (seq_lt_total _ _ str_eqb_eq str_lt_total _ _ Nxy); auto.
    + intros [_ [= En _]]. contradiction.
    + intros [Hxy Hyx].
      rewrite (seq_lt_asym _ _ str_eqb_eq str_lt_irrefl str_lt_trans _ _ Hxy)
        in Hyx. discriminate.
    + intros [[= En _] _]. contradiction.
Qed.

(** ** Vector points *)

Lemma vvar_nested_ind (P : vvar -> Prop) :
  (forall x, P (VVariable x)) ->
  (forall vs, Forall P vs -> P (VVector vs)) ->
  forall v, P v.
Proof.
  intros Hvar Hvec. fix IH 1. intros [x|vs]; [apply Hvar|].
  apply Hvec. induction vs as [|v vs IHvs]; constructor; [apply IH | exact IHvs].
Qed.

Lemma flatten_shape (v : vvar) :
  forall val,
    match _flatten v val with
    | Ok pairs =>
        shape_fits v val = true
        /\ map fst pairs = vvar_leaves v /\ map snd pairs = vval_leaves val
    | Raise _ => shape_fits v val = false
    end.
Proof.
  induction v as [x|vs IHvs] using vvar_nested_ind; intros [z|vals]; simpl;
    try (split_and!; reflexivity); try reflexivity.
  destruct (Nat.eqb_spec (length vs) (length vals)) as [Hlen|Hlen]; simpl;
    [|reflexivity].
  revert vals Hlen. induction IHvs as [|v vs Hv _ IH]; intros [|val vals] Hlen;
    simpl in *; try discriminate; [split_and!; reflexivity|].
  specialize (Hv val). specialize (IH vals ltac:(lia)).
  destruct (_flatten v val) as [pairs|e]; simpl.
  - destruct Hv as (-> & Hf & Hs). simpl.
    match goal with
    | |- match ?zipped ≫= _ with _ => _ end => destruct zipped as [more|e]
    end; simpl.
    + destruct IH as (-> & Hf' & Hs'). rewrite !map_app, Hf, Hs, Hf', Hs'.
      split_and!; reflexivity.
    + exact IH.
  - rewrite Hv. reflexivity.
Qed.

Lemma combine_fst_snd {A B} (l : list (A * B)) :
  combine (map fst l) (map snd l) = l.
Proof.
  induction l as [|[a b] l IH]; simpl; [reflexivity | rewrite IH; reflexivity].
Qed.

Lemma flatten_pairs (v : vvar) (val : vval) :
  match _flatten v val with
  | Ok pairs =>
      shape_fits v val = true
      /\ pairs = combine (vvar_leaves v) (vval_leaves val)
      /\ length (vvar_leaves v) = length (vval_leaves val)
  | Raise _ => shape_fits v val = false
  end.
Proof.
  pose proof (flatten_shape v val) as Hshape.
  destruct (_flatten v val) as [pairs|e]; [|exact Hshape].
  destruct Hshape as (Hfits & Hf & Hs). split; [exact Hfits|].
  rewrite <- Hf, <- Hs, combine_fst_snd, !length_map. split; reflexivity.
Qed.

(** X24. [_flatten] returns exactly when the shape of the key fits the
    shape of the value (a variable against an int, a vector against a
    sequence of the same length, item by item); it then yields the
    variables of the key paired with the ints of the value, left to
    right. In every other case it raises. *)
Theorem flatten_fits (v : vvar) (val : vval) :
  match _flatten v val with
  | Ok pairs =>
      shape_fits v val = true
      /\ pairs = combine (vvar_leaves v) (vval_leaves val)
      /\ length (vvar_leaves v) = length (vval_leaves val)
  | Raise _ => shape_fits v val = false
  end.
Proof. apply flatten_pairs. Qed.

Lemma vpoint2point_fold_raise (vpoint : list (vvar * vval)) (e : exn) :
  fold_left (fun acc v_val =>
               point ← acc;
               pairs ← _flatten (fst v_val) (snd v_val);
               Ok (dict_update point pairs))
            vpoint (Raise e) = Raise e.
Proof. induction vpoint as [|x vpoint IH]; simpl; auto. Qed.

Lemma dict_update_app (d : point) (p q : list (variable * Z)) :
  dict_update d (p ++ q) = dict_update (dict_update d p) q.
Proof. unfold dict_update. apply fold_left_app. Qed.

Lemma vpoint2point_fold (vpoint : list (vvar * vval)) (d : point) :
  match fold_left (fun acc v_val =>
                     point ← acc;
                     pairs ← _flatten (fst v_val) (snd v_val);
                     Ok (dict_update point pairs))
                  vpoint (Ok d) with
  | Ok p =>
      forallb (fun v_val => shape_fits (fst v_val) (snd v_val)) vpoint = true
      /\ p = dict_update d (vpoint_pairs vpoint)
  | Raise _ =>
      forallb (fun v_val => shape_fits (fst v_val) (snd v_val)) vpoint = false
  end.
Proof.
  revert d. induction vpoint as [|[v val] vpoint IH]; intros d; simpl.
  - split; reflexivity.
  - pose proof (flatten_pairs v val) as Hfit.
    destruct (_flatten v val) as [pairs|e]; simpl.
    + destruct Hfit as (-> & -> & _). simpl.
      specialize (IH (dict_update d (combine (vvar_leaves v) (vval_leaves val)))).
      destruct (fold_left _ vpoint _) as [p|e]; [|exact IH].
      destruct IH as [-> ->]. split; [reflexivity|].
      unfold vpoint_pairs. simpl. rewrite dict_update_app. reflexivity.
    + rewrite Hfit, vpoint2point_fold_raise. reflexivity.
Qed.

Lemma vpoint2point_shape (vpoint : list (vvar * vval)) :
  match vpoint2point vpoint with
  | Ok p =>
      forallb (fun v_val => shape_fits (fst v_val) (snd v_val)) vpoint = true
      /\ p = dict_update [] (vpoint_pairs vpoint)
  | Raise _ =>
      forallb (fun v_val => shape_fits (fst v_val) (snd v_val)) vpoint = false
  end.
Proof. apply vpoint2point_fold. Qed.

(** X25. [vpoint2point] returns exactly when every key fits its value
    in shape; the point is then the empty dict updated with the pairs of
    all entries in order, so a variable assigned twice keeps its last
    value. *)
Theorem vpoint2point_fits (vpoint : list (vvar * vval)) :
  match vpoint2point vpoint with
  | Ok p =>
      forallb (fun v_val => shape_fits (fst v_val) (snd v_val)) vpoint = true
      /\ p = dict_update [] (vpoint_pairs vpoint)
  | Raise _ =>
      forallb (fun v_val => shape_fits (fst v_val) (snd v_val)) vpoint = false
  end.
Proof. apply vpoint2point_shape. Qed.

Lemma dict_update_fresh (d : point) (p : list (variable * Z)) :
  List.NoDup (map (fun kv => oid (fst kv)) d ++ map (fun kv => oid (fst kv)) p) ->
  dict_update d p = d ++ p.
Proof.
  revert d. induction p as [|[v z] p IH]; intros d Hnd; simpl.
  - rewrite app_nil_r. reflexivity.
  - unfold dict_update in *. simpl. rewrite dict_set_fresh.
    + rewrite IH.
      * rewrite <- app_assoc. reflexivity.
      * rewrite map_app. simpl. rewrite <- app_assoc. simpl. exact Hnd.
    + simpl in Hnd. apply NoDup_remove_2 in Hnd. intros Hin. apply Hnd.
      apply in_or_app. left. exact Hin.
Qed.

(** X26. A point whose variables are pairwise distinct, taken as a
    vector point, flattens to itself. *)
Theorem vpoint2point_point (p : point) :
  List.NoDup (map (fun kv => oid (fst kv)) p) ->
  vpoint2point (point_as_vpoint p) = Ok p.
Proof.
  intros Hnd. pose proof (vpoint2point_shape (point_as_vpoint p)) as Hfits.
  assert (Hall : forallb (fun v_val => shape_fits (fst v_val) (snd v_val))
                   (point_as_vpoint p) = true).
  { unfold point_as_vpoint. clear.
    induction p as [|[v z] p IH]; simpl; auto. }
  assert (Hpairs : vpoint_pairs (point_as_vpoint p) = p).
  { unfold vpoint_pairs, point_as_vpoint. clear.
    induction p as [|[v z] p IH]; simpl; [reflexivity|].
    f_equal. exact IH. }
  destruct (vpoint2point (point_as_vpoint p)) as [q|e].
  - destruct Hfits as [_ ->]. rewrite Hpairs.
    rewrite dict_update_fresh by exact Hnd. reflexivity.
  - congruence.
Qed.

Lemma vpoint2point_point_witness :
  List.NoDup (map (fun kv => oid (fst kv)) [(ex_a, 0); (ex_b, 1)])
  /\ vpoint2point (point_as_vpoint [(ex_a, 0); (ex_b, 1)])
     = Ok [(ex_a, 0); (ex_b, 1)].
Proof.
  split; [exact ex_a_b_distinct|].
  apply (vpoint2point_point [(ex_a, 0); (ex_b, 1)]). exact ex_a_b_distinct.
Defined.

Lemma vpoint2point_app (good more : list (vvar * vval)) :
  vpoint2point (good ++ more)
  = match vpoint2point good with
    | Ok p =>
        fold_left (fun acc v_val =>
                     point ← acc;
                     pairs ← _flatten (fst v_val) (snd v_val);
                     Ok (dict_update point pairs))
                  more (Ok p)
    | Raise e => Raise e
    end.
Proof.
  unfold vpoint2point. rewrite fold_left_app.
  destruct (fold_left _ good _) as [p|e]; [reflexivity|].
  apply vpoint2point_fold_raise.
Qed.

(** X27. A vector of variables against a sequence of another length is
    rejected with the [ValueError] of the length check, also when it comes
    after entries that fit. *)
Theorem vpoint2point_mismatch (good rest : list (vvar * vval))
    (vs : list vvar) (vals : list vval) :
  forallb (fun v_val => shape_fits (fst v_val) (snd v_val)) good = true ->
  length vs <> length vals ->
  vpoint2point (good ++ (VVector vs, VSeq vals) :: rest) = Raise flatten_mismatch.
Proof.
  intros Hgood Hlen. rewrite vpoint2point_app.
  pose proof (vpoint2point_shape good) as Hfits.
  destruct (vpoint2point good) as [p|e]; [|congruence].
  simpl. destruct (Nat.eqb_spec (length vs) (length vals)) as [E|_];
    [contradiction|].
  simpl. apply vpoint2point_fold_raise.
Qed.

Lemma vpoint2point_mismatch_witness :
  forallb (fun v_val => shape_fits (fst v_val) (snd v_val))
          [(VVariable ex_a, VInt 1)] = true
  /\ length [VVariable ex_a; VVariable ex_b] <> length [VInt 0; VInt 1; VInt 1]
  /\ vpoint2point ([(VVariable ex_a, VInt 1)]
                   ++ (VVector [VVariable ex_a; VVariable ex_b],
                       VSeq [VInt 0; VInt 1; VInt 1]) :: [])
     = Raise flatten_mismatch.
Proof.
  split; [reflexivity|]. split; [simpl; lia|].
  apply (vpoint2point_mismatch [(VVariable ex_a, VInt 1)] []
           [VVariable ex_a; VVariable ex_b] [VInt 0; VInt 1; VInt 1]);
    [reflexivity | simpl; lia].
Defined.

(** ** Restriction by points *)

Section RestrictClaims.
Context {F : Type} `{Function F}.

(** X28. [restrict] by a point whose values are all among 0, 1, -1, -2
    is [urestrict] by the ids of its variables, split by value; any other
    value makes it raise [IndexError]. [vrestrict] by a vector point whose
    entries fit in shape is [restrict] by the flattened point, and raises
    when an entry does not fit. *)
Theorem restrict_vrestrict (f : F) (p : point) (vpoint : list (vvar * vval)) :
  restrict f p
  = (if forallb (fun v_val => reads_zeros (snd v_val) || reads_ones (snd v_val)) p
     then Ok (urestrict f (uniqids_where reads_zeros p,
                           uniqids_where reads_ones p))
     else Raise index_error)
  /\ (if forallb (fun v_val => shape_fits (fst v_val) (snd v_val)) vpoint
      then vrestrict f vpoint
           = restrict f (dict_update [] (vpoint_pairs vpoint))
      else exists e, vrestrict f vpoint = Raise e).
Proof.
  split.
  - unfold restrict. rewrite point2upoint_closed.
    destruct (forallb _ p); reflexivity.
  - unfold vrestrict. pose proof (vpoint2point_shape vpoint) as Hfits.
    destruct (vpoint2point vpoint) as [q|e].
    + destruct Hfits as [-> ->]. reflexivity.
    + rewrite Hfits. exists e. reflexivity.
Qed.
End RestrictClaims.

(** ** The folds never fail for want of cofactors *)

Section FoldClaims.
Context {F : Type} `{Function F}.



End FoldClaims.

